(** * Propositional logic: the grammar model and the semantic operations

    A shallow embedding of [lp/syntax.py] (symbols, operators, rendering,
    the regular-expression recognizers) and of [operations.py] (semantic
    status, equivalence, consistency, logic consequence), with the
    properties the design document states about them. *)

From Stdlib Require Import ZArith Ascii String List Lia.
From stdpp Require Import base option list strings gmap.

Local Open Scope string_scope.

(** ** Python strings

    A [str] is modelled by [string]; the places that walk a string
    character by character use its [list ascii] view. *)

Definition newline : ascii := "010"%char.

(** The ASCII lowercase letters, codes 97 to 122, and the ASCII digits,
    codes 48 to 57. *)
Definition is_lower (c : ascii) : bool :=
  ((97 <=? N_of_ascii c) && (N_of_ascii c <=? 122))%N.

Definition is_digit (c : ascii) : bool :=
  ((48 <=? N_of_ascii c) && (N_of_ascii c <=? 57))%N.

(** ** The fragment of Python's [re] that [lp/syntax.py] uses *)

Module Re.

(** One member of a bracketed set: [a-z] or a single (possibly escaped)
    character. *)
Inductive item : Type :=
| Range (lo hi : ascii)
| Single (c : ascii).

Inductive pattern : Type :=
| Lit (c : ascii)                  (* [&], [\(], [<] ...             *)
| Set_ (items : list item)          (* [[a-z0-9]]                     *)
| Cat (p q : pattern)               (* juxtaposition                  *)
| Star (p : pattern)                (* [p*], greedy                   *)
| Times (n : nat) (p : pattern)     (* [p{n}]                         *)
| Group (p : pattern)               (* [(p)]                          *)
| Bol                               (* [^]                            *)
| Eol.                              (* [$]                            *)

Definition code (c : ascii) : N := N_of_ascii c.

Definition in_item (c : ascii) (i : item) : bool :=
  match i with
  | Range lo hi => ((code lo <=? code c) && (code c <=? code hi))%N
  | Single d => (code c =? code d)%N
  end.

Definition in_set (items : list item) (c : ascii) : bool :=
  existsb (in_item c) items.

(** [$] without the MULTILINE flag: the end of the string, or just before
    a newline that is the last character of the string. *)
Definition at_eol (s : list ascii) : bool :=
  match s with
  | [] => true
  | [c] => (code c =? code newline)%N
  | _ => false
  end.

(** The continuation of a match: position reached, rest of the subject. *)
Definition cont : Type := nat → list ascii → option nat.

(** [body*] before [k]: one more [body] that consumes something and then
    the loop again, else [k] right here.  [fuel] bounds the number of
    rounds by the length of what is left. *)
Fixpoint star_loop (body : nat → list ascii → cont → option nat) (k : cont)
         (fuel : nat) (pos : nat) (s : list ascii) {struct fuel}
  : option nat :=
  match fuel with
  | O => k pos s
  | S fuel' =>
      match body pos s
              (λ pos' s', if (length s' <? length s)%nat
                          then star_loop body k fuel' pos' s' else None) with
      | Some e => Some e
      | None => k pos s
      end
  end.

(** [body{n}] before [k]. *)
Fixpoint times_loop (body : nat → list ascii → cont → option nat) (k : cont)
         (n : nat) (pos : nat) (s : list ascii) {struct n} : option nat :=
  match n with
  | O => k pos s
  | S n' => body pos s (λ pos' s', times_loop body k n' pos' s')
  end.

(** Backtracking matcher.  [pos] is the number of characters consumed so
    far, [s] what is left of the subject, [k] the rest of the pattern;
    the result is the end position of the first match found, trying the
    greedy alternative first. *)
Fixpoint run (p : pattern) (pos : nat) (s : list ascii) (k : cont)
         {struct p} : option nat :=
  match p with
  | Lit c =>
      match s with
      | d :: s' => if (code d =? code c)%N then k (S pos) s' else None
      | [] => None
      end
  | Set_ items =>
      match s with
      | d :: s' => if in_set items d then k (S pos) s' else None
      | [] => None
      end
  | Cat p1 p2 => run p1 pos s (λ pos' s', run p2 pos' s' k)
  | Star p1 => star_loop (run p1) k (length s) pos s
  | Times n p1 => times_loop (run p1) k n pos s
  | Group p1 => run p1 pos s k
  | Bol => if (pos =? 0)%nat then k pos s else None
  | Eol => if at_eol s then k pos s else None
  end.

(** [regexp.match(subject)]: anchored at position 0, free at the end.
    [Some e] stands for the match object (its [end()]), [None] for
    Python's [None]. *)
Definition match_ (p : pattern) (subject : string) : option nat :=
  run p 0 (list_ascii_of_string subject) (λ pos _, Some pos).

End Re.

(** ** [lp/syntax.py]: the symbol classes and their patterns *)

Inductive UnaryClass : Type := Negation.

Inductive BinaryClass : Type :=
| Conjunction | Disjunction | Implication | BiImplication.

(** The concrete operator classes, by the base class they derive from. *)
Inductive OperatorClass : Type :=
| Unary (c : UnaryClass)
| Binary (c : BinaryClass).

#[global] Instance UnaryClass_eq_dec : EqDecision UnaryClass.
Proof. solve_decision. Defined.

#[global] Instance BinaryClass_eq_dec : EqDecision BinaryClass.
Proof. solve_decision. Defined.

#[global] Instance OperatorClass_eq_dec : EqDecision OperatorClass.
Proof. solve_decision. Defined.

(** Every class of the module that can be asked for its [pattern]. *)
Inductive SymbolClass : Type :=
| Symbol_
| PropositionalSymbol_
| PontuationSymbol_
| OpeningParenthesis_
| ClosingParenthesis_
| Operator_
| UnaryOperator_
| BinaryOperator_
| Concrete (o : OperatorClass).

Module Pat.
Import Re.

(** [Symbol.pattern]: one group holding the starred set of
    a-z, 0-9, ampersand, hyphen, bar, greater-than, less-than and the
    two parentheses. *)
Definition general_set : list item :=
  [Range "a" "z"; Range "0" "9"; Single "&"; Single "-"; Single "|";
   Single ">"; Single "<"; Single "("; Single ")"].

Definition general : pattern := Group (Star (Set_ general_set)).

(** [PropositionalSymbol.pattern]: one group holding the set a-z
    repeated {1} and then the starred set 0-9. *)
Definition propositional : pattern :=
  Group (Cat (Times 1 (Set_ [Range "a" "z"]))
             (Star (Set_ [Range "0" "9"]))).

(** [PontuationSymbol.pattern]: one group holding the set of the two
    parentheses. *)
Definition pontuation : pattern := Group (Set_ [Single "("; Single ")"]).

(** [BiImplication.pattern]: less-than, escaped hyphen, greater-than. *)
Definition biimplication : pattern := Cat (Lit "<") (Cat (Lit "-") (Lit ">")).

(** [Implication.pattern]: escaped hyphen, greater-than. *)
Definition implication : pattern := Cat (Lit "-") (Lit ">").
End Pat.

(** The class attribute [pattern], inherited from [Symbol] where a class
    does not set its own. *)
Definition pattern (cls : SymbolClass) : Re.pattern :=
  match cls with
  | Symbol_ | Operator_ | UnaryOperator_ | BinaryOperator_ => Pat.general
  | PropositionalSymbol_ => Pat.propositional
  | PontuationSymbol_ => Pat.pontuation
  | OpeningParenthesis_ => Re.Lit "("
  | ClosingParenthesis_ => Re.Lit ")"
  | Concrete (Unary Negation) => Re.Lit "-"
  | Concrete (Binary Conjunction) => Re.Lit "&"
  | Concrete (Binary Disjunction) => Re.Lit "|"
  | Concrete (Binary Implication) => Pat.implication
  | Concrete (Binary BiImplication) => Pat.biimplication
  end.

(** [Symbol.evaluate]: [re.compile(r'^%s$' % cls.pattern).match(symbol)]. *)
Definition evaluate (cls : SymbolClass) (symbol : string) : option nat :=
  Re.match_ (Re.Cat Re.Bol (Re.Cat (pattern cls) Re.Eol)) symbol.

(** ** Operator metadata *)

Module Associativity.
Definition LEFT : Z := 1.
Definition RIGHT : Z := 0.
End Associativity.

Definition SYMBOL (o : OperatorClass) : string :=
  match o with
  | Unary Negation => "-"
  | Binary Conjunction => "&"
  | Binary Disjunction => "|"
  | Binary Implication => "->"
  | Binary BiImplication => "<->"
  end.

(** The attribute is spelled [precendence] in the source. *)
Definition precendence (o : OperatorClass) : Z :=
  match o with
  | Unary Negation => 6
  | Binary Conjunction => 5
  | Binary Disjunction => 4
  | Binary Implication => 3
  | Binary BiImplication => 2
  end.

Definition associativity (o : OperatorClass) : Z :=
  match o with
  | Unary Negation => Associativity.RIGHT
  | Binary _ => Associativity.LEFT
  end.

(** ** Expression trees

    An instance of [PropositionalSymbol], or an operator instance whose
    [set_arg] / [set_args] has been called.  Every instance carries the
    [value] it was constructed with. *)
Inductive Symbol : Type :=
| PropositionalSymbol (value : string)
| UnaryOperator (cls : UnaryClass) (value : string) (arg1 : Symbol)
| BinaryOperator (cls : BinaryClass) (value : string) (arg1 arg2 : Symbol).

#[global] Instance Symbol_eq_dec : EqDecision Symbol.
Proof. solve_decision. Defined.

Definition class_of (e : Symbol) : option OperatorClass :=
  match e with
  | PropositionalSymbol _ => None
  | UnaryOperator c _ _ => Some (Unary c)
  | BinaryOperator c _ _ _ => Some (Binary c)
  end.

(** [e.is_a(PropositionalSymbol)] and [e.is_a(Operator)]. *)
Definition is_a_PropositionalSymbol (e : Symbol) : bool :=
  match e with PropositionalSymbol _ => true | _ => false end.

Definition is_a_Operator (e : Symbol) : bool :=
  match class_of e with Some _ => true | None => false end.

(** The arguments an instance holds: [arg1], and [arg2] on a binary one. *)
Definition args (e : Symbol) : list Symbol :=
  match e with
  | PropositionalSymbol _ => []
  | UnaryOperator _ _ a => [a]
  | BinaryOperator _ _ a b => [a; b]
  end.

(** Number of arguments [set_arg] / [set_args] takes. *)
Definition arity (o : OperatorClass) : nat :=
  match o with Unary _ => 1 | Binary _ => 2 end.

(** [subformulas] of the three classes that define it. *)
Fixpoint subformulas (e : Symbol) : list Symbol :=
  match e with
  | PropositionalSymbol _ => [e]
  | UnaryOperator _ _ a => [e] ++ subformulas a
  | BinaryOperator _ _ a b => [e] ++ subformulas a ++ subformulas b
  end.

(** The test [BinaryOperator.str_representation] makes on each argument:
    [arg.is_a(PropositionalSymbol) or
     (arg.is_a(Operator) and self.precendence <= arg.precendence)]. *)
Definition no_parenthesis (self : BinaryClass) (arg : Symbol) : bool :=
  is_a_PropositionalSymbol arg
  || (is_a_Operator arg
      && match class_of arg with
         | Some o => (precendence (Binary self) <=? precendence o)%Z
         | None => false
         end).

Fixpoint str_representation (e : Symbol) : string :=
  match e with
  | PropositionalSymbol value => value
  | UnaryOperator c _ a =>
      if is_a_PropositionalSymbol a
      then SYMBOL (Unary c) +:+ str_representation a
      else SYMBOL (Unary c) +:+ "(" +:+ str_representation a +:+ ")"
  | BinaryOperator c _ a b =>
      let arg1_repr :=
        if no_parenthesis c a then str_representation a
        else "(" +:+ str_representation a +:+ ")" in
      let arg2_repr :=
        if no_parenthesis c b then str_representation b
        else "(" +:+ str_representation b +:+ ")" in
      arg1_repr +:+ SYMBOL (Binary c) +:+ arg2_repr
  end.

(** ** [operations.py]

    The module imports [Interpreter], [TruthTable] and [SetTruthTable] from
    [lp.interpreter], which is not part of the sources at hand.  The
    operations are written against the interface they use of it; [None]
    stands for an exception raised inside the interpreter, which the
    operations let through.

    A dict is a [gmap].  Python walks a dict in insertion order, the loops
    below walk [map_to_list]; their results do not depend on the order of
    the items ([indexes_all_in_Permutation], [check_status_Permutation]). *)

Class LpInterpreter : Type := {
  (** what a table stores for the variables of one line *)
  Valuation : Type;
  TruthTable : Type;
  SetTruthTable : Type;
  (** [Interpreter.parse_expression(text)] *)
  Interpreter_parse_expression : string → option Symbol;
  (** [TruthTable(formula)] *)
  TruthTable_new : string → option TruthTable;
  (** [get_formula_valuations()]: a dict from line number to a sequence
      whose item 1 is the formula's value on that line *)
  get_formula_valuations : TruthTable → option (gmap nat (Valuation * bool));
  TruthTable_str_representation : TruthTable → option string;
  (** [SetTruthTable(formulas)] *)
  SetTruthTable_new : list string → option SetTruthTable;
  (** [get_formula_models(key)]: a dict whose keys are valuation indexes *)
  get_formula_models : SetTruthTable → string → option (gmap nat Valuation);
  (** [get_formulas_set_models(formulas)], the argument being optional *)
  get_formulas_set_models :
    SetTruthTable → option (gmap string Symbol) → option (gmap nat Valuation);
  SetTruthTable_str_representation : SetTruthTable → option string
}.

(** ['[%s, [%s]]' % (verdict, table)] *)
Definition format_result (verdict table : string) : string :=
  "[" +:+ verdict +:+ ", [" +:+ table +:+ "]]".

(** [SemanticStatus.check_status] *)
Definition check_status (formula_values : list bool) : string :=
  let tautology :=
    bool_decide (true ∈ formula_values)
    && negb (bool_decide (false ∈ formula_values)) in
  let contradiction :=
    bool_decide (false ∈ formula_values)
    && negb (bool_decide (true ∈ formula_values)) in
  if tautology then "TAUTOLOGIA"
  else if contradiction then "CONTRADICAO"
  else "CONTINGENCIA".

(** The loop
    [for valuation_index, valuation in items: if valuation_index not in
     other: flag = False; break], started with [flag = True]; the result is
    the flag.  The three loops of this shape in the module differ only in
    the two dicts. *)
Fixpoint indexes_all_in {A B : Type} (items : list (nat * A))
         (other : gmap nat B) : bool :=
  match items with
  | [] => true
  | (valuation_index, _) :: rest =>
      if bool_decide (other !! valuation_index = None)
      then false
      else indexes_all_in rest other
  end.

(** The loop of [is_logic_consequence_of_empty_set]:
    [if valuation[1] is False: logic_consequence = False; break]. *)
Fixpoint no_false_line {V : Type} (items : list (nat * (V * bool))) : bool :=
  match items with
  | [] => true
  | (_, valuation) :: rest =>
      if bool_decide (valuation.2 = false)
      then false
      else no_false_line rest
  end.

Section Operations.
Context `{Interp : LpInterpreter}.

(** [SemanticStatus.perform] *)
Definition formula_values_of (valuations : gmap nat (Valuation * bool))
  : list bool :=
  (λ item : nat * (Valuation * bool), item.2.2) <$> map_to_list valuations.

Definition SemanticStatus_perform (formula : string) : option string :=
  truth_table ← TruthTable_new formula;
  valuations ← get_formula_valuations truth_table;
  let status := check_status (formula_values_of valuations) in
  table ← TruthTable_str_representation truth_table;
  Some (format_result status table).

(** [SemanticEquivalence.check_equivalence] *)
Definition check_equivalence (formula1 formula2 : string)
  : option (bool * SetTruthTable) :=
  truth_table ← SetTruthTable_new [formula1; formula2];
  formula1 ← Interpreter_parse_expression formula1;
  formula2 ← Interpreter_parse_expression formula2;
  models1 ← get_formula_models truth_table (str_representation formula1);
  models2 ← get_formula_models truth_table (str_representation formula2);
  let equivalent := indexes_all_in (map_to_list models1) models2 in
  let equivalent :=
    if equivalent then indexes_all_in (map_to_list models2) models1
    else equivalent in
  Some (equivalent, truth_table).

Definition SemanticEquivalence_perform (formula1 formula2 : string)
  : option string :=
  '(quid_pro_quo, truth_table) ← check_equivalence formula1 formula2;
  let equivalent := if quid_pro_quo : bool then "SIM" else "NAO" in
  table ← SetTruthTable_str_representation truth_table;
  Some (format_result equivalent table).

(** [Consistency.perform]; a dict is truthy when it is not empty. *)
Definition Consistency_perform (formulas : list string) : option string :=
  truth_table ← SetTruthTable_new formulas;
  formulas_models ← get_formulas_set_models truth_table None;
  let consistent :=
    if bool_decide (formulas_models = ∅) then "NAO" else "SIM" in
  table ← SetTruthTable_str_representation truth_table;
  Some (format_result consistent table).

(** [LogicConsequence.is_logic_consequence_of_empty_set] *)
Definition is_logic_consequence_of_empty_set (formula : string)
  : option string :=
  truth_table ← TruthTable_new formula;
  valuations ← get_formula_valuations truth_table;
  let logic_consequence := no_false_line (map_to_list valuations) in
  let consequence := if logic_consequence then "SIM" else "NAO" in
  table ← TruthTable_str_representation truth_table;
  Some (format_result consequence table).

(** The loop of [LogicConsequence.perform] that fills the dict
    [formulas], keyed by each premise's rendering. *)
Fixpoint premises_by_rendering (formulas_set : list string)
         (formulas : gmap string Symbol) : option (gmap string Symbol) :=
  match formulas_set with
  | [] => Some formulas
  | f :: rest =>
      form ← Interpreter_parse_expression f;
      premises_by_rendering rest (<[str_representation form := form]> formulas)
  end.

(** The guard [if '' in formulas_set and len(formulas_set) is 1]. *)
Definition is_empty_set (formulas_set : list string) : bool :=
  bool_decide ("" ∈ formulas_set)
  && bool_decide (length formulas_set = 1%nat).

(** [LogicConsequence.perform] *)
Definition LogicConsequence_perform (formulas_set : list string)
           (formula : string) : option string :=
  if is_empty_set formulas_set
  then is_logic_consequence_of_empty_set formula
  else
    truth_table ← SetTruthTable_new (formulas_set ++ [formula]);
    formula ← Interpreter_parse_expression formula;
    formulas ← premises_by_rendering formulas_set ∅;
    set_models ← get_formulas_set_models truth_table (Some formulas);
    formula_models ←
      get_formula_models truth_table (str_representation formula);
    let logic_consequence :=
      indexes_all_in (map_to_list set_models) formula_models in
    let consequence := if logic_consequence then "SIM" else "NAO" in
    table ← SetTruthTable_str_representation truth_table;
    Some (format_result consequence table).

End Operations.

(** ** A truth-table engine for the interface *)

Module Engine.

(** Modelled from the spec: the tokens of the missing
    [lp/interpreter.py], the lexical units of section 6. *)
Inductive token : Type :=
| TVar (name : string)
| TOp (o : OperatorClass)
| TOpen
| TClose.

(** Modelled from the spec: a helper of the lexer of the missing
    [lp/interpreter.py], the longest prefix of [l] whose items satisfy
    [p] and what follows it. *)
Fixpoint span {A : Type} (p : A → bool) (l : list A) : list A * list A :=
  match l with
  | x :: l' =>
      if p x then let '(run, rest) := span p l' in (x :: run, rest)
      else ([], l)
  | [] => ([], [])
  end.

(** Modelled from the spec: the lexer of the missing [lp/interpreter.py].
    Section 6 fixes the tokens; section 4.1 has a token that starts with
    a lowercase letter rejected when it is not a letter followed by
    digits, so the whole run of letters and digits is taken as the
    token and checked with the recognizer of [PropositionalSymbol].
    Characters outside the accepted class, whitespace included, are
    rejected. *)
Fixpoint lex (fuel : nat) (s : list ascii) : option (list token) :=
  match fuel with
  | O => match s with [] => Some [] | _ => None end
  | S fuel =>
      match s with
      | [] => Some []
      | "(" :: s' => cons TOpen <$> lex fuel s'
      | ")" :: s' => cons TClose <$> lex fuel s'
      | "&" :: s' => cons (TOp (Binary Conjunction)) <$> lex fuel s'
      | "|" :: s' => cons (TOp (Binary Disjunction)) <$> lex fuel s'
      | "-" :: ">" :: s' => cons (TOp (Binary Implication)) <$> lex fuel s'
      | "-" :: s' => cons (TOp (Unary Negation)) <$> lex fuel s'
      | "<" :: "-" :: ">" :: s' =>
          cons (TOp (Binary BiImplication)) <$> lex fuel s'
      | c :: s' =>
          if is_lower c then
            let '(run, rest) := span (λ d, is_lower d || is_digit d) s' in
            let name := string_of_list_ascii (c :: run) in
            match evaluate PropositionalSymbol_ name with
            | Some _ => cons (TVar name) <$> lex fuel rest
            | None => None
            end
          else None
      end
  end%char.

(** Modelled from the spec: the precedence tiers of section 4.3 for the
    parser of the missing [lp/interpreter.py], outermost first. *)
Definition tiers : list BinaryClass :=
  [BiImplication; Implication; Disjunction; Conjunction].

(** Modelled from the spec: the parser of the missing
    [lp/interpreter.py], section 4.3: one level per precedence tier from
    bi-implication (outermost) to conjunction, binary operators of one
    tier reduced left to right, negation applied to the negation, atom or
    parenthesized group that follows it.  [level] is the list of tiers
    still to descend through. *)
Fixpoint parse_level (fuel : nat) (level : list BinaryClass)
         (ts : list token) {struct fuel} : option (Symbol * list token) :=
  match fuel with
  | O => None
  | S fuel =>
      match level with
      | [] =>
          match ts with
          | TVar name :: ts' => Some (PropositionalSymbol name, ts')
          | TOp (Unary Negation) :: ts' =>
              '(e, rest) ← parse_level fuel [] ts';
              Some (UnaryOperator Negation (SYMBOL (Unary Negation)) e, rest)
          | TOpen :: ts' =>
              '(e, rest) ← parse_level fuel tiers ts';
              match rest with
              | TClose :: rest' => Some (e, rest')
              | _ => None
              end
          | _ => None
          end
      | c :: higher =>
          '(lhs, rest) ← parse_level fuel higher ts;
          (fix reduce (fuel' : nat) (lhs : Symbol) (ts : list token)
             {struct fuel'} : option (Symbol * list token) :=
             match fuel', ts with
             | S fuel', TOp (Binary c') :: ts' =>
                 if bool_decide (c' = c) then
                   '(rhs, rest) ← parse_level fuel higher ts';
                   reduce fuel'
                     (BinaryOperator c (SYMBOL (Binary c)) lhs rhs) rest
                 else Some (lhs, ts)
             | O, TOp (Binary c') :: _ =>
                 if bool_decide (c' = c) then None else Some (lhs, ts)
             | _, _ => Some (lhs, ts)
             end) (length rest) lhs rest
      end
  end.

(** Modelled from the spec: [Interpreter.parse_expression] of the missing
    [lp/interpreter.py], section 4.3: the whole text must be one
    expression; anything else is the syntax error, [None]. *)
Definition parse_expression (text : string) : option Symbol :=
  let s := list_ascii_of_string text in
  ts ← lex (length s) s;
  '(e, rest) ← parse_level (6 * (length ts + 1)) tiers ts;
  match rest with
  | [] => Some e
  | _ => None
  end.

(** Modelled from the spec: a valuation of section 3, the variables of
    the table with their values, in the table's variable order. *)
Definition assignment : Type := list (string * bool).

(** Modelled from the spec: the variable universe of section 4.4, the
    names of the variables among the subformulas of the expressions,
    each kept at its first occurrence. *)
Fixpoint first_occurrences (seen names : list string) : list string :=
  match names with
  | [] => []
  | x :: rest =>
      if bool_decide (x ∈ seen) then first_occurrences seen rest
      else x :: first_occurrences (x :: seen) rest
  end.

(** Modelled from the spec: [variables_of] of section 4.4 for the missing
    [lp/interpreter.py], collected through [subformulas]. *)
Definition variables_of (es : list Symbol) : list string :=
  first_occurrences []
    (mjoin ((λ e, match e with
                  | PropositionalSymbol name => [name]
                  | _ => []
                  end) <$> mjoin (subformulas <$> es))).

(** Modelled from the spec: the canonical enumeration of section 4.4, a
    binary counter in which the first variable changes slowest and is
    true on the first half of the lines. *)
Fixpoint enumerate (vars : list string) : list assignment :=
  match vars with
  | [] => [[]]
  | x :: rest =>
      (cons (x, true) <$> enumerate rest)
      ++ (cons (x, false) <$> enumerate rest)
  end.

(** Modelled from the spec: [evaluate(expression, valuation)] of section
    4.4; [None] is the unbound-variable error. *)
Fixpoint truth_value (e : Symbol) (v : assignment) : option bool :=
  match e with
  | PropositionalSymbol name => snd <$> list_find (λ item, item.1 = name) v
                                ≫= λ found, Some found.2
  | UnaryOperator Negation _ a => negb <$> truth_value a v
  | BinaryOperator c _ a b =>
      x ← truth_value a v;
      y ← truth_value b v;
      Some match c with
           | Conjunction => x && y
           | Disjunction => x || y
           | Implication => implb x y
           | BiImplication => implb x y && implb y x
           end
  end.

(** Modelled from the spec: the truth table of section 3, the tracked
    formulas under their renderings and one line per valuation holding
    the formulas' values in input order. *)
Record table : Type := {
  formulas : list (string * Symbol);
  lines : list (assignment * list bool)
}.

(** Modelled from the spec: [build_table] of section 4.4. *)
Definition build_table (es : list Symbol) : option table :=
  lines ← mapM (λ v, results ← mapM (λ e, truth_value e v) es;
                     Some (v, results))
               (enumerate (variables_of es));
  Some {| formulas := (λ e, (str_representation e, e)) <$> es;
          lines := lines |}.

(** Modelled from the spec: the model-set queries of the missing
    [lp/interpreter.py] answer with the lines of the table that satisfy
    [keep], under their positions. *)
Definition lines_where (t : table) (keep : list bool → bool)
  : gmap nat assignment :=
  list_to_map
    (omap (λ item : nat * (assignment * list bool),
             if keep item.2.2 then Some (item.1, item.2.1) else None)
          (imap (λ i line, (i, line)) (lines t))).

(** Modelled from the spec: in the missing [lp/interpreter.py] a formula
    is looked up by its rendering; this is the position of the formula
    rendered as [key] among the tracked ones. *)
Definition column (t : table) (key : string) : option nat :=
  fst <$> list_find (λ item, item.1 = key) (formulas t).

(** Modelled from the spec: [models_of] of section 4.4, the lines on
    which the formula rendered as [key] is true; an unknown key is an
    error. *)
Definition models_of (t : table) (key : string)
  : option (gmap nat assignment) :=
  j ← column t key;
  Some (lines_where t (λ results, bool_decide (results !! j = Some true))).

(** Modelled from the spec: [common_models] of section 4.4, the lines on
    which all the given formulas are true, every line when none is
    given; without an argument, the formulas are the table's own. *)
Definition common_models (t : table) (given : option (gmap string Symbol))
  : option (gmap nat assignment) :=
  let keys := match given with
              | Some d => (map_to_list d).*1
              | None => (formulas t).*1
              end in
  js ← mapM (column t) keys;
  Some (lines_where t
          (λ results,
             forallb (λ j, bool_decide (results !! j = Some true)) js)).

(** Modelled from the spec: the valuations of a single-formula table,
    each line's variables paired with the formula's value. *)
Definition formula_valuations (t : table)
  : option (gmap nat (assignment * bool)) :=
  list_to_map <$>
    mapM (λ item : nat * (assignment * list bool),
            value ← item.2.2 !! 0%nat; Some (item.1, (item.2.1, value)))
         (imap (λ i line, (i, line)) (lines t)).

(** Modelled from the spec: how the missing [lp/interpreter.py] writes a
    truth value is left open by the spec; here it is one letter. *)
Definition letter (b : bool) : string := if b then "T" else "F".

(** Modelled from the spec: the rendered table of section 6.  The spec
    leaves its layout open; here a line is the letters of its variables'
    values followed by those of the formulas' values, and the lines are
    separated by commas. *)
Definition render (t : table) : string :=
  String.concat ", "
    ((λ line : assignment * list bool,
        String.concat "" (letter <$> (line.1.*2 ++ line.2)%list))
     <$> lines t).

(** Modelled from the spec: the engine of the missing
    [lp/interpreter.py] behind the interface of [operations.py]. *)
#[export] Instance interpreter : LpInterpreter := {|
  Valuation := assignment;
  TruthTable := table;
  SetTruthTable := table;
  Interpreter_parse_expression := parse_expression;
  TruthTable_new formula :=
    e ← parse_expression formula; build_table [e];
  get_formula_valuations := formula_valuations;
  TruthTable_str_representation t := Some (render t);
  SetTruthTable_new formulas :=
    es ← mapM parse_expression formulas; build_table es;
  get_formula_models := models_of;
  get_formulas_set_models := common_models;
  SetTruthTable_str_representation t := Some (render t)
|}.

End Engine.


(** ** The rest of [lp/syntax.py]: the initial characters *)

(** The class attribute [accepted_initial_char].  [Symbol],
    [PontuationSymbol] and the three operator base classes do not have
    it. *)
Definition accepted_initial_char (cls : SymbolClass) : option Re.pattern :=
  match cls with
  | Symbol_ | PontuationSymbol_ | Operator_ | UnaryOperator_
  | BinaryOperator_ => None
  | PropositionalSymbol_ => Some (Re.Set_ [Re.Range "a" "z"])
  | OpeningParenthesis_ => Some (Re.Lit "(")
  | ClosingParenthesis_ => Some (Re.Lit ")")
  | Concrete (Unary Negation) => Some (Re.Lit "-")
  | Concrete (Binary Conjunction) => Some (Re.Lit "&")
  | Concrete (Binary Disjunction) => Some (Re.Lit "|")
  | Concrete (Binary Implication) => Some (Re.Lit "-")
  | Concrete (Binary BiImplication) => Some (Re.Lit "<")
  end.

(** [Symbol.accepts_initial_char]:
    [re.compile(r'^%s$' % cls.accepted_initial_char).match(char)].  The
    outer [None] is the attribute error of a class without the
    attribute. *)
Definition accepts_initial_char (cls : SymbolClass) (char : string)
  : option (option nat) :=
  p ← accepted_initial_char cls;
  Some (Re.match_ (Re.Cat Re.Bol (Re.Cat p Re.Eol)) char).

(** ** The string methods the [parse] methods of [operations.py] use

    A character of a [string] stands for the code point of the same
    number. *)

Module Py.

(** [s.split(sep)] for a one-character separator: the fields between the
    separators, one more than there are separators. *)
Fixpoint split (sep : ascii) (s : string) : list string :=
  match s with
  | EmptyString => [EmptyString]
  | String c s' =>
      if Ascii.eqb c sep then EmptyString :: split sep s'
      else match split sep s' with
           | field :: fields => String c field :: fields
           | [] => [String c EmptyString]
           end
  end.

(** [s.replace(old, '')] for a non-empty [old]: the occurrences of [old]
    are taken from the left, without overlap.  [skip] counts the
    characters of a found occurrence still to pass over. *)
Fixpoint remove_from (old : string) (skip : nat) (s : string) : string :=
  match s with
  | EmptyString => EmptyString
  | String c s' =>
      match skip with
      | S skip' => remove_from old skip' s'
      | O =>
          if String.prefix old s
          then remove_from old (String.length old - 1) s'
          else String c (remove_from old 0 s')
      end
  end.

Definition remove (old : string) (s : string) : string :=
  remove_from old 0 s.

(** The code points below 256 that [str.split()] takes for whitespace:
    tab to carriage return, the four separators 28 to 31, the space, the
    next-line control and the no-break space. *)
Definition is_space (c : ascii) : bool :=
  let n := N_of_ascii c in
  (((9 <=? n) && (n <=? 13)) || ((28 <=? n) && (n <=? 32))
   || (n =? 133) || (n =? 160))%N.

(** [s.split()]: the runs of characters that are not whitespace. *)
Fixpoint split_whitespace (s : string) : list string :=
  match s with
  | EmptyString => []
  | String c s' =>
      if is_space c then split_whitespace s'
      else
        match s' with
        | String d _ =>
            if is_space d then String c EmptyString :: split_whitespace s'
            else match split_whitespace s' with
                 | word :: words => String c word :: words
                 | [] => [String c EmptyString]
                 end
        | EmptyString => [String c EmptyString]
        end
  end.

(** [s[1:]] *)
Definition from_1 (s : string) : string :=
  match s with
  | EmptyString => EmptyString
  | String _ s' => s'
  end.

End Py.

(** ** The rest of [operations.py]: the [parse] methods *)

(** [Operation.parse]: [line.split(',')[1:]]. *)
Definition Operation_parse (line : string) : list string :=
  tail (Py.split "," line).

(** The steps [Consistency.parse] and [LogicConsequence.parse] share, for
    the operation symbol [SYMBOL]: take the symbol out, take the
    whitespace out and drop the first character, take the brackets out,
    split on commas. *)
Definition bracketed_args (SYMBOL : string) (line : string) : list string :=
  let line := Py.remove SYMBOL line in
  let line := Py.from_1 (String.concat "" (Py.split_whitespace line)) in
  let line := Py.remove "]" (Py.remove "[" line) in
  Py.split "," line.

(** [Consistency.parse], with [SYMBOL = 'C']: one argument, the list of
    formulas. *)
Definition Consistency_parse (line : string) : list (list string) :=
  [bracketed_args "C" line].

(** [LogicConsequence.parse], with [SYMBOL = 'CL']: [args[:-1]] and
    [args[-1]]; [None] is the index error of [args[-1]] on an empty
    list. *)
Definition LogicConsequence_parse (line : string)
  : option (list string * string) :=
  let args := bracketed_args "CL" line in
  formula ← last args;
  Some (removelast args, formula).

(** ** Notions of the design document, for comparison with the code *)

(** The parenthesization rule as section 4.2 words it, for any parent
    operator: the child is bare when it is a variable, or an operator
    whose precedence is greater than or equal to the parent's. *)
Definition bare_as_documented (parent : OperatorClass) (child : Symbol)
  : Prop :=
  is_a_PropositionalSymbol child = true
  ∨ ∃ o, class_of child = Some o ∧ (precendence parent ≤ precendence o)%Z.

(** [text] is the child's own rendering, bare. *)
Definition bare (child : Symbol) (text : string) : Prop :=
  text = str_representation child.

(** [text] is the child's rendering between parentheses. *)
Definition wrapped (child : Symbol) (text : string) : Prop :=
  text = "(" +:+ str_representation child +:+ ")".

(** Rendering with the documented rule applied at every node. *)
Fixpoint render_as_documented (e : Symbol) : string :=
  let child parent arg :=
    if is_a_PropositionalSymbol arg
       || match class_of arg with
          | Some o => (precendence parent <=? precendence o)%Z
          | None => false
          end
    then render_as_documented arg
    else "(" +:+ render_as_documented arg +:+ ")" in
  match e with
  | PropositionalSymbol value => value
  | UnaryOperator c _ a => SYMBOL (Unary c) +:+ child (Unary c) a
  | BinaryOperator c _ a b =>
      child (Binary c) a +:+ SYMBOL (Binary c) +:+ child (Binary c) b
  end.

(** No negation is the argument of a negation, anywhere in the tree. *)
Fixpoint no_negation_under_negation (e : Symbol) : bool :=
  match e with
  | PropositionalSymbol _ => true
  | UnaryOperator _ _ a =>
      match a with
      | UnaryOperator _ _ _ => false
      | _ => no_negation_under_negation a
      end
  | BinaryOperator _ _ a b =>
      no_negation_under_negation a && no_negation_under_negation b
  end.

(** Number of nodes of the tree equal to [x], the root included. *)
Fixpoint occurrences (x e : Symbol) : nat :=
  (if bool_decide (e = x) then 1 else 0)
  + match e with
    | PropositionalSymbol _ => 0
    | UnaryOperator _ _ a => occurrences x a
    | BinaryOperator _ _ a b => occurrences x a + occurrences x b
    end.

(** Number of nodes of the tree. *)
Fixpoint node_count (e : Symbol) : nat :=
  match e with
  | PropositionalSymbol _ => 1
  | UnaryOperator _ _ a => 1 + node_count a
  | BinaryOperator _ _ a b => 1 + node_count a + node_count b
  end.

(** [--p] as a tree, and its inner negation. *)
Definition not_p : Symbol :=
  UnaryOperator Negation "-" (PropositionalSymbol "p").

Definition not_not_p : Symbol := UnaryOperator Negation "-" not_p.

(** The text [p] followed by a line feed. *)
Definition p_newline : string := String "p" (String newline EmptyString).

(** The characters section 6 accepts in a formula. *)
Definition accepted_char (c : ascii) : bool :=
  is_lower c || is_digit c
  || bool_decide (c ∈ ["&"; "-"; "|"; ">"; "<"; "("; ")"]%char).

(** A lowercase letter followed by digits only. *)
Definition letter_then_digits (s : list ascii) : Prop :=
  ∃ c ds, s = c :: ds
          ∧ is_lower c = true
          ∧ forallb is_digit ds = true.

(** ** Notions for the properties of the rendering and of the parsing *)

(** The pattern that is the literal characters [c], [cs] one after the
    other. *)
Fixpoint literal_pattern (c : ascii) (cs : list ascii) : Re.pattern :=
  match cs with
  | [] => Re.Lit c
  | d :: cs' => Re.Cat (Re.Lit c) (literal_pattern d cs')
  end.

(** Every character of [s] satisfies [p]. *)
Fixpoint all_chars (p : ascii → bool) (s : string) : bool :=
  match s with
  | EmptyString => true
  | String c s' => p c && all_chars p s'
  end.

(** [s] without the characters that do not satisfy [p]. *)
Fixpoint keep (p : ascii → bool) (s : string) : string :=
  match s with
  | EmptyString => EmptyString
  | String c s' => if p c then String c (keep p s') else keep p s'
  end.

(** Number of occurrences of the character [c] in [s]. *)
Fixpoint count_char (c : ascii) (s : string) : nat :=
  match s with
  | EmptyString => 0
  | String d s' => (if Ascii.eqb d c then 1 else 0) + count_char c s'
  end.

(** A name that is a lowercase letter followed by digits only. *)
Definition is_variable_name (s : string) : bool :=
  match s with
  | EmptyString => false
  | String c ds => is_lower c && all_chars is_digit ds
  end.

(** Every variable of the tree has such a name. *)
Fixpoint well_named (e : Symbol) : bool :=
  match e with
  | PropositionalSymbol value => is_variable_name value
  | UnaryOperator _ _ a => well_named a
  | BinaryOperator _ _ a b => well_named a && well_named b
  end.

(** Reading [s] from nesting depth [d]: the depth reached at its end, or
    [None] when a closing parenthesis comes with nothing open. *)
Fixpoint depth_after (d : nat) (s : string) : option nat :=
  match s with
  | EmptyString => Some d
  | String c s' =>
      if Ascii.eqb c "(" then depth_after (S d) s'
      else if Ascii.eqb c ")" then
             match d with
             | O => None
             | S d' => depth_after d' s'
             end
           else depth_after d s'
  end.

(** The characters a formula handed over by the bracketed [parse] methods
    cannot hold: whitespace, brackets and commas. *)
Definition is_separator (c : ascii) : bool :=
  Py.is_space c || Ascii.eqb c "[" || Ascii.eqb c "]" || Ascii.eqb c ",".

(** The line feed as a string. *)
Definition newline_string : string := String newline EmptyString.

(** ** Two implications that render alike *)

(** [p->(q->r)] as a tree. *)
Definition implies_right_nested : Symbol :=
  BinaryOperator Implication "->"
    (PropositionalSymbol "p")
    (BinaryOperator Implication "->"
       (PropositionalSymbol "q") (PropositionalSymbol "r")).

(** [(p->q)->r] as a tree. *)
Definition implies_left_nested : Symbol :=
  BinaryOperator Implication "->"
    (BinaryOperator Implication "->"
       (PropositionalSymbol "p") (PropositionalSymbol "q"))
    (PropositionalSymbol "r").

(** The valuation in which only [q] is true. *)
Definition only_q : Engine.assignment :=
  [("p", false); ("q", true); ("r", false)].

(** The table of the two implications as the engine writes it: on each
    line the values of [p], [q], [r], then of [p->(q->r)], then of
    [(p->q)->r]. *)
Definition nested_implications_table : string :=
  "TTTTT, TTFFF, TFTTT, TFFTT, FTTTT, FTFTF, FFTTT, FFFTF".

(** * Properties *)

(** ** The grammar model *)

Lemma string_length_append (s t : string) :
  String.length (s +:+ t) = (String.length s + String.length t)%nat.
Proof. induction s as [|c s IH]; simpl; [done | by rewrite IH]. Qed.

Lemma bare_not_wrapped (child : Symbol) (text : string) :
  bare child text → wrapped child text → False.
Proof.
  unfold bare, wrapped. intros -> H.
  apply (f_equal String.length) in H.
  rewrite !string_length_append in H. simpl in H. lia.
Qed.

Lemma no_parenthesis_documented (self : BinaryClass) (arg : Symbol) :
  no_parenthesis self arg = true ↔ bare_as_documented (Binary self) arg.
Proof.
  unfold no_parenthesis, bare_as_documented, is_a_Operator.
  destruct arg as [v | c v a | c v a b]; simpl.
  - split; [by left | done].
  - rewrite Z.leb_le. split.
    + intros H. right. eauto.
    + intros [? | (o & [= <-] & H)]; done.
  - rewrite Z.leb_le. split.
    + intros H. right. eauto.
    + intros [? | (o & [= <-] & H)]; done.
Qed.

(** C6: the five operator classes carry the documented metadata: Negation
    is unary, of precedence 6 and right-associative; Conjunction [&],
    Disjunction [|], Implication [->] and BiImplication [<->] are binary,
    left-associative and of precedence 5, 4, 3 and 2.  There is no other
    operator class, and a node holds as many arguments as its class's
    arity. *)
Theorem operator_metadata :
  (SYMBOL (Unary Negation) = "-" ∧ arity (Unary Negation) = 1%nat
   ∧ precendence (Unary Negation) = 6%Z
   ∧ associativity (Unary Negation) = Associativity.RIGHT)
  ∧ (SYMBOL (Binary Conjunction) = "&" ∧ arity (Binary Conjunction) = 2%nat
     ∧ precendence (Binary Conjunction) = 5%Z
     ∧ associativity (Binary Conjunction) = Associativity.LEFT)
  ∧ (SYMBOL (Binary Disjunction) = "|" ∧ arity (Binary Disjunction) = 2%nat
     ∧ precendence (Binary Disjunction) = 4%Z
     ∧ associativity (Binary Disjunction) = Associativity.LEFT)
  ∧ (SYMBOL (Binary Implication) = "->" ∧ arity (Binary Implication) = 2%nat
     ∧ precendence (Binary Implication) = 3%Z
     ∧ associativity (Binary Implication) = Associativity.LEFT)
  ∧ (SYMBOL (Binary BiImplication) = "<->"
     ∧ arity (Binary BiImplication) = 2%nat
     ∧ precendence (Binary BiImplication) = 2%Z
     ∧ associativity (Binary BiImplication) = Associativity.LEFT)
  ∧ (∀ o : OperatorClass,
       o ∈ [Unary Negation; Binary Conjunction; Binary Disjunction;
            Binary Implication; Binary BiImplication])
  ∧ (Associativity.LEFT ≠ Associativity.RIGHT)
  ∧ (∀ e o, class_of e = Some o → length (args e) = arity o).
Proof.
  repeat split; try reflexivity.
  - intros [[] | []]; set_solver.
  - discriminate.
  - intros [v | c v a | c v a b] o [= <-]; reflexivity.
Qed.

Lemma count_occ_cons_decide (y x : Symbol) (l : list Symbol) :
  count_occ Symbol_eq_dec (y :: l) x
  = ((if bool_decide (y = x) then 1 else 0) + count_occ Symbol_eq_dec l x)%nat.
Proof.
  destruct (decide (y = x)) as [Heq | Hne].
  - rewrite count_occ_cons_eq, bool_decide_eq_true_2 by done. done.
  - rewrite count_occ_cons_neq, bool_decide_eq_false_2 by done. done.
Qed.

(** C7: [subformulas] lists the tree in pre-order: a variable gives the
    one-element list of itself, a unary node itself and then the
    subformulas of its argument, a binary node itself, then the
    subformulas of its first argument, then those of its second.  Equal
    subformulas are all kept: a formula is listed as many times as it
    occurs in the tree. *)
Theorem subformulas_preorder :
  (∀ value, subformulas (PropositionalSymbol value)
            = [PropositionalSymbol value])
  ∧ (∀ c value a, subformulas (UnaryOperator c value a)
                  = UnaryOperator c value a :: subformulas a)
  ∧ (∀ c value a b, subformulas (BinaryOperator c value a b)
                    = BinaryOperator c value a b
                        :: subformulas a ++ subformulas b)
  ∧ (∀ e x, count_occ Symbol_eq_dec (subformulas e) x = occurrences x e).
Proof.
  repeat split; try reflexivity.
  intros e x.
  induction e as [v | c v a IHa | c v a IHa b IHb];
    cbn [subformulas occurrences app];
    rewrite count_occ_cons_decide, ?count_occ_app, ?IHa, ?IHb; simpl; lia.
Qed.

(** C10: for every expression, [subformulas] starts with the expression
    itself, so it is not empty; its length is the number of nodes of the
    tree, which is at least 1. *)
Theorem subformulas_head_and_length (e : Symbol) :
  (∃ rest, subformulas e = e :: rest)
  ∧ length (subformulas e) = node_count e
  ∧ (1 ≤ length (subformulas e))%nat.
Proof.
  assert (Hlen : ∀ e', length (subformulas e') = node_count e').
  { induction e' as [v | c v a IHa | c v a IHa b IHb]; simpl.
    - done.
    - by rewrite IHa.
    - rewrite length_app, IHa, IHb. lia. }
  split; [| split].
  - destruct e; simpl; eauto.
  - apply Hlen.
  - rewrite Hlen. destruct e; simpl; lia.
Qed.

(** C1, as stated, fails on a negation under a negation: the documented
    rule leaves the inner negation bare (its precedence, 6, is not below
    the parent's) and would give [--p], while the code puts it between
    parentheses. *)
Lemma double_negation_is_wrapped :
  bare_as_documented (Unary Negation) not_p
  ∧ render_as_documented not_not_p = "--p"
  ∧ str_representation not_not_p = "-(-p)"
  ∧ str_representation not_not_p
    ≠ SYMBOL (Unary Negation) +:+ str_representation not_p.
Proof.
  repeat split; try reflexivity.
  - right. exists (Unary Negation). split; [reflexivity | simpl; lia].
  - discriminate.
Qed.

(** C1, amended: a binary node renders as its first argument, its token
    and its second argument, where each argument is bare exactly when the
    documented rule says so (it is a variable, or an operator of
    precedence greater than or equal to the node's) and between
    parentheses otherwise; a unary node renders as its token and its
    argument, which is bare exactly when it is a variable and between
    parentheses otherwise, so that the negation of the negation of [p]
    renders as [-(-p)]; a variable renders as its name. *)
Theorem str_representation_parenthesization :
  (∀ c value a b, ∃ arg1_repr arg2_repr,
      str_representation (BinaryOperator c value a b)
      = arg1_repr +:+ SYMBOL (Binary c) +:+ arg2_repr
      ∧ (bare a arg1_repr ↔ bare_as_documented (Binary c) a)
      ∧ (wrapped a arg1_repr ↔ ¬ bare_as_documented (Binary c) a)
      ∧ (bare b arg2_repr ↔ bare_as_documented (Binary c) b)
      ∧ (wrapped b arg2_repr ↔ ¬ bare_as_documented (Binary c) b))
  ∧ (∀ c value a, ∃ arg_repr,
        str_representation (UnaryOperator c value a)
        = SYMBOL (Unary c) +:+ arg_repr
        ∧ (bare a arg_repr ↔ is_a_PropositionalSymbol a = true)
        ∧ (wrapped a arg_repr ↔ is_a_PropositionalSymbol a = false))
  ∧ (∀ value, str_representation (PropositionalSymbol value) = value)
  ∧ str_representation not_not_p = "-(-p)".
Proof.
  assert (Harg : ∀ c a,
    let text := if no_parenthesis c a then str_representation a
                else "(" +:+ str_representation a +:+ ")" in
    (bare a text ↔ bare_as_documented (Binary c) a)
    ∧ (wrapped a text ↔ ¬ bare_as_documented (Binary c) a)).
  { intros c a. cbv zeta. rewrite <- no_parenthesis_documented.
    destruct (no_parenthesis c a); split; split; try done.
    - intros Hw _. by eapply bare_not_wrapped.
    - intros Hb. exfalso. by eapply bare_not_wrapped. }
  split; [| split; [| split]].
  - intros c value a b. cbn [str_representation].
    destruct (Harg c a) as [Ha1 Ha2], (Harg c b) as [Hb1 Hb2].
    eexists _, _. split; [reflexivity |]. done.
  - intros c value a. cbn [str_representation].
    destruct (is_a_PropositionalSymbol a) eqn:Hvar.
    + eexists. split; [reflexivity |]. split; split; try done.
      intros Hw. exfalso. by eapply bare_not_wrapped.
    + eexists. split; [reflexivity |]. split; split; try done.
      intros Hb. exfalso. by eapply bare_not_wrapped.
  - reflexivity.
  - reflexivity.
Qed.

(** Off negations under negations the code renders as documented. *)
Lemma str_representation_as_documented (e : Symbol) :
  no_negation_under_negation e = true →
  str_representation e = render_as_documented e.
Proof.
  induction e as [v | c v a IHa | c v a IHa b IHb];
    cbn [no_negation_under_negation str_representation render_as_documented].
  - done.
  - destruct c. destruct a as [w | c' w a' | c' w a' b'].
    + done.
    + done.
    + intros H. rewrite (IHa H). by destruct c'.
  - intros [Ha Hb]%andb_prop. rewrite (IHa Ha), (IHb Hb).
    unfold no_parenthesis, is_a_Operator.
    by destruct a, b.
Qed.

(** ** The recognizers *)

Lemma code_inj (c d : ascii) : (Re.code c =? Re.code d)%N = true → c = d.
Proof.
  unfold Re.code. intros H%N.eqb_eq.
  rewrite <- (ascii_N_embedding c), <- (ascii_N_embedding d). by f_equal.
Qed.

Lemma at_eol_cases (s : list ascii) :
  Re.at_eol s = true ↔ s = [] ∨ s = [newline].
Proof.
  destruct s as [| c [| d s]]; cbn [Re.at_eol].
  - split; [by left | done].
  - split.
    + intros ->%code_inj. by right.
    + intros [? | [= ->]]; [done | apply N.eqb_refl].
  - split; [done | intros [? | ?]; done].
Qed.

(** A starred set before [k] succeeds exactly when some prefix made of
    members of the set leaves a rest on which [k] succeeds. *)
Lemma star_set_is_Some (items : list Re.item) (k : Re.cont) :
  ∀ (fuel pos : nat) (s : list ascii),
    (length s ≤ fuel)%nat →
    is_Some (Re.star_loop (Re.run (Re.Set_ items)) k fuel pos s)
    ↔ ∃ pre rest, s = (pre ++ rest)%list
                  ∧ forallb (Re.in_set items) pre = true
                  ∧ is_Some (k (pos + length pre)%nat rest).
Proof.
  induction fuel as [| fuel IH]; intros pos s Hlen.
  - destruct s as [| c s]; [| simpl in Hlen; lia]. simpl. split.
    + intros H. exists [], []. by rewrite Nat.add_0_r.
    + intros (pre & rest & Heq & _ & H).
      symmetry in Heq. apply app_eq_nil in Heq as [-> ->].
      by rewrite Nat.add_0_r in H.
  - cbn [Re.star_loop Re.run]. destruct s as [| d s].
    + split.
      * intros H. exists [], []. by rewrite Nat.add_0_r.
      * intros (pre & rest & Heq & _ & H).
        symmetry in Heq. apply app_eq_nil in Heq as [-> ->].
        by rewrite Nat.add_0_r in H.
    + simpl in Hlen.
      destruct (Re.in_set items d) eqn:Hd.
      * replace (length s <? length (d :: s))%nat with true
          by (symmetry; apply Nat.ltb_lt; simpl; lia).
        specialize (IH (S pos) s ltac:(lia)).
        destruct (Re.star_loop _ k fuel (S pos) s) as [e |] eqn:Hloop.
        -- split; [intros _ | by eauto].
           destruct IH as [IH _].
           destruct (IH ltac:(eauto)) as (pre & rest & -> & Hall & H).
           exists (d :: pre), rest. simpl. rewrite Hd, Hall.
           by rewrite Nat.add_succ_r.
        -- split.
           ++ intros H. exists [], (d :: s). by rewrite Nat.add_0_r.
           ++ intros ([| d' pre] & rest & Heq & Hall & H).
              ** simpl in Heq. subst rest. by rewrite Nat.add_0_r in H.
              ** simpl in Heq, Hall. injection Heq as <- ->.
                 apply andb_prop in Hall as [_ Hall].
                 destruct IH as [_ IH]. exfalso.
                 assert (is_Some (@None nat)) as [? [=]].
                 apply IH. exists pre, rest.
                 cbn [length] in H. by rewrite Nat.add_succ_r in H.
      * split.
        -- intros H. exists [], (d :: s). by rewrite Nat.add_0_r.
        -- intros ([| d' pre] & rest & Heq & Hall & H).
           ++ simpl in Heq. subst rest. by rewrite Nat.add_0_r in H.
           ++ simpl in Heq, Hall. injection Heq as <- ->.
              rewrite Hd in Hall. done.
Qed.

Lemma forallb_ext' {A : Type} (f g : A → bool) (l : list A) :
  (∀ x, f x = g x) → forallb f l = forallb g l.
Proof. intros H. induction l as [| x l IH]; simpl; [done | by rewrite H, IH]. Qed.

Lemma forallb_single_set (i : Re.item) (l : list ascii) :
  forallb (Re.in_set [i]) l = forallb (λ d, Re.in_item d i) l.
Proof.
  induction l as [| d l IH]; [done |].
  cbn [forallb]. rewrite IH. unfold Re.in_set. simpl.
  by rewrite orb_false_r.
Qed.

(** What the recognizer of [PropositionalSymbol] accepts: a letter followed
    by digits, with or without one line feed after it. *)
Lemma evaluate_PropositionalSymbol_iff (symbol : string) :
  is_Some (evaluate PropositionalSymbol_ symbol)
  ↔ letter_then_digits (list_ascii_of_string symbol)
    ∨ ∃ s, list_ascii_of_string symbol = (s ++ [newline])%list
           ∧ letter_then_digits s.
Proof.
  unfold evaluate, Re.match_, letter_then_digits.
  generalize (list_ascii_of_string symbol) as l. intros l.
  cbn [pattern Pat.propositional Re.run Re.times_loop Nat.eqb].
  destruct l as [| c l].
  { split; [by intros [? [=]] |].
    intros [(c & ds & [=] & _) | (s & Heq & _)].
    by destruct s. }
  change is_digit with (λ d, Re.in_item d (Re.Range "0" "9")).
  change (is_lower ?x) with (Re.in_item x (Re.Range "a" "z")).
  assert (Hset : ∀ i d, Re.in_set [i] d = Re.in_item d i).
  { intros i d. unfold Re.in_set. simpl. by rewrite orb_false_r. }
  rewrite Hset.
  destruct (Re.in_item c (Re.Range "a" "z")) eqn:Hc.
  - etrans;
      [exact (star_set_is_Some [Re.Range "0" "9"] _ (length l) 1 l
                ltac:(done)) |].
    split.
    + intros (pre & rest & -> & Hall & H).
      destruct (Re.at_eol rest) eqn:Heol; [| by destruct H].
      apply at_eol_cases in Heol as [-> | ->].
      * left. exists c, pre. rewrite app_nil_r.
        repeat split; [done |]. by rewrite <- forallb_single_set.
      * right. exists (c :: pre). split; [done |].
        exists c, pre. repeat split; [done |].
        by rewrite <- forallb_single_set.
    + intros [(c' & ds & [= <- ->] & _ & Hall)
             | (s & Heq & c' & ds & -> & _ & Hall)].
      * exists ds, []. rewrite app_nil_r.
        repeat split; [by rewrite forallb_single_set | by eexists].
      * injection Heq as <- ->. exists ds, [newline].
        repeat split; [by rewrite forallb_single_set | by eexists].
  - split; [by intros [? [=]] |].
    intros [(c' & ds & [= <- ->] & Hc' & _)
           | (s & Heq & c' & ds & -> & Hc' & _)].
    + congruence.
    + injection Heq as <- _. congruence.
Qed.

Lemma in_general_set (c : ascii) :
  Re.in_set Pat.general_set c = accepted_char c.
Proof. destruct c as [[] [] [] [] [] [] [] []]; vm_compute; reflexivity. Qed.

(** What the general recognizer accepts: accepted characters only, with
    or without one line feed after them; the empty string is among
    them. *)
Lemma evaluate_Symbol_iff (symbol : string) :
  is_Some (evaluate Symbol_ symbol)
  ↔ ∃ body, forallb accepted_char body = true
            ∧ (list_ascii_of_string symbol = body
               ∨ list_ascii_of_string symbol = (body ++ [newline])%list).
Proof.
  unfold evaluate, Re.match_.
  generalize (list_ascii_of_string symbol) as l. intros l.
  cbn [pattern Pat.general Re.run Nat.eqb].
  etrans;
    [exact (star_set_is_Some Pat.general_set _ (length l) 0 l ltac:(done)) |].
  split.
  - intros (pre & rest & -> & Hall & H). exists pre. split.
    + rewrite <- Hall. apply forallb_ext'. intros d. by rewrite in_general_set.
    + destruct (Re.at_eol rest) eqn:Heol; [| by destruct H].
      apply at_eol_cases in Heol as [-> | ->];
        [left; by rewrite app_nil_r | by right].
  - intros (body & Hall & [-> | ->]).
    + exists body, []. rewrite app_nil_r. repeat split; [| by eexists].
      rewrite <- Hall. apply forallb_ext'. intros d. by rewrite in_general_set.
    + exists body, [newline]. repeat split; [| by eexists].
      rewrite <- Hall. apply forallb_ext'. intros d. by rewrite in_general_set.
Qed.

(** C8: the recognizer of [PropositionalSymbol] accepts the text [p]
    followed by a line feed, which is not a letter followed by digits; the
    match ends at position 1, before the line feed. *)
Theorem PropositionalSymbol_accepts_trailing_newline :
  evaluate PropositionalSymbol_ p_newline = Some 1%nat
  ∧ ¬ letter_then_digits (list_ascii_of_string p_newline).
Proof.
  split; [reflexivity |].
  intros (c & ds & [= <- <-] & _ & Hds). simpl in Hds. discriminate.
Qed.

(** C9: the general recognizer [Symbol.evaluate] accepts the empty
    string: the starred set matches no character and the end anchor holds
    at once, so the match object is there, ending at position 0. *)
Theorem Symbol_evaluate_accepts_empty_string :
  evaluate Symbol_ "" = Some 0%nat ∧ is_Some (evaluate Symbol_ "").
Proof. split; [reflexivity | by eexists]. Qed.

(** ** The semantic operations *)

(** The three verdicts of [check_status], each with the lists that get
    it. *)
Lemma check_status_cases (formula_values : list bool) :
  (check_status formula_values = "TAUTOLOGIA"
   ↔ true ∈ formula_values ∧ false ∉ formula_values)
  ∧ (check_status formula_values = "CONTRADICAO"
     ↔ false ∈ formula_values ∧ true ∉ formula_values)
  ∧ (check_status formula_values = "CONTINGENCIA"
     ↔ ¬ (true ∈ formula_values ∧ false ∉ formula_values)
       ∧ ¬ (false ∈ formula_values ∧ true ∉ formula_values)).
Proof.
  unfold check_status.
  repeat split; repeat case_bool_decide; simpl;
    try discriminate; try tauto; try done.
  all: intros []; tauto.
Qed.

(** C2: on any list of truth values, [check_status] answers TAUTOLOGIA
    exactly when some value is true and none is false, CONTRADICAO exactly
    when some value is false and none is true, and CONTINGENCIA in every
    other case; the empty list is such a case. *)
Theorem check_status_verdict (formula_values : list bool) :
  (check_status formula_values = "TAUTOLOGIA"
   ↔ true ∈ formula_values ∧ false ∉ formula_values)
  ∧ (check_status formula_values = "CONTRADICAO"
     ↔ false ∈ formula_values ∧ true ∉ formula_values)
  ∧ (check_status formula_values = "CONTINGENCIA"
     ↔ ¬ (true ∈ formula_values ∧ false ∉ formula_values)
       ∧ ¬ (false ∈ formula_values ∧ true ∉ formula_values))
  ∧ check_status [] = "CONTINGENCIA".
Proof.
  destruct (check_status_cases formula_values) as (Ht & Hc & Hg).
  split; [exact Ht |]. split; [exact Hc |]. split; [exact Hg |].
  reflexivity.
Qed.

Lemma format_result_verdict (v1 v2 t1 t2 : string) :
  v1 ∈ ["SIM"; "NAO"; "TAUTOLOGIA"; "CONTRADICAO"; "CONTINGENCIA"] →
  v2 ∈ ["SIM"; "NAO"; "TAUTOLOGIA"; "CONTRADICAO"; "CONTINGENCIA"] →
  format_result v1 t1 = format_result v2 t2 → v1 = v2.
Proof.
  intros H1 H2. unfold format_result.
  repeat (apply elem_of_cons in H1 as [-> | H1]);
    [| | | | | by apply elem_of_nil in H1];
    repeat (apply elem_of_cons in H2 as [-> | H2]);
    try (by apply elem_of_nil in H2); cbv [String.append]; congruence.
Qed.

Lemma check_status_range (formula_values : list bool) :
  check_status formula_values
  ∈ ["SIM"; "NAO"; "TAUTOLOGIA"; "CONTRADICAO"; "CONTINGENCIA"].
Proof. unfold check_status. repeat case_match; repeat constructor. Qed.

(** The flag of the membership loop is false exactly when some index of
    the items is missing from the other dict. *)
Lemma indexes_all_in_false {A B : Type} (items : list (nat * A))
      (other : gmap nat B) :
  indexes_all_in items other = false
  ↔ ∃ i a, (i, a) ∈ items ∧ other !! i = None.
Proof.
  induction items as [| [i a] items IH]; simpl.
  - split; [done | intros (i & a & H%elem_of_nil & _); done].
  - case_bool_decide as Hi.
    + split; [intros _ | done]. exists i, a. split; [left | done].
    + rewrite IH. split.
      * intros (j & b & Hin & Hj). exists j, b. split; [by right | done].
      * intros (j & b & Hin & Hj).
        apply elem_of_cons in Hin as [[= -> ->] | Hin]; [done |].
        eauto.
Qed.

Lemma indexes_all_in_dom {A B : Type} (m : gmap nat A) (other : gmap nat B) :
  indexes_all_in (map_to_list m) other = true ↔ dom m ⊆ dom other.
Proof.
  rewrite <- not_false_iff_true, indexes_all_in_false. split.
  - intros H i [a Hi]%elem_of_dom.
    destruct (other !! i) as [b |] eqn:Hb; [by apply elem_of_dom |].
    exfalso. apply H. exists i, a. by rewrite elem_of_map_to_list.
  - intros Hsub (i & a & Hin%elem_of_map_to_list & Hnone).
    assert (i ∈ dom other) as [b Hb]%elem_of_dom
      by (apply Hsub, elem_of_dom; eauto).
    congruence.
Qed.

Lemma indexes_all_in_missing {A B : Type} (m : gmap nat A)
      (other : gmap nat B) :
  indexes_all_in (map_to_list m) other = false
  ↔ ∃ i, i ∈ dom m ∧ i ∉ dom other.
Proof.
  rewrite indexes_all_in_false. split.
  - intros (i & a & Hin%elem_of_map_to_list & Hnone). exists i. split.
    + apply elem_of_dom. eauto.
    + by apply not_elem_of_dom.
  - intros (i & [a Hi]%elem_of_dom & Hnone%not_elem_of_dom).
    exists i, a. by rewrite elem_of_map_to_list.
Qed.

(** The order in which the items of the dict come is immaterial to the
    flag. *)
Lemma indexes_all_in_Permutation {A B : Type} (items items' : list (nat * A))
      (other : gmap nat B) :
  items ≡ₚ items' → indexes_all_in items other = indexes_all_in items' other.
Proof.
  intros Hperm.
  destruct (indexes_all_in items other) eqn:H,
           (indexes_all_in items' other) eqn:H'; try done.
  - apply indexes_all_in_false in H' as (i & a & Hin & Hi).
    rewrite <- Hperm in Hin.
    assert (indexes_all_in items other = false) as Hf
      by (apply indexes_all_in_false; eauto).
    congruence.
  - apply indexes_all_in_false in H as (i & a & Hin & Hi).
    rewrite Hperm in Hin.
    assert (indexes_all_in items' other = false) as Hf
      by (apply indexes_all_in_false; eauto).
    congruence.
Qed.

Lemma check_status_Permutation (values values' : list bool) :
  values ≡ₚ values' → check_status values = check_status values'.
Proof.
  intros Hperm. unfold check_status.
  rewrite (bool_decide_ext (true ∈ values) (true ∈ values'))
    by (by rewrite Hperm).
  rewrite (bool_decide_ext (false ∈ values) (false ∈ values'))
    by (by rewrite Hperm).
  done.
Qed.

Lemma no_false_line_true {V : Type} (items : list (nat * (V * bool))) :
  no_false_line items = true
  ↔ ∀ i line, (i, line) ∈ items → line.2 ≠ false.
Proof.
  induction items as [| [i line] items IH]; simpl.
  - split; [intros _ ?? H%elem_of_nil; done | done].
  - case_bool_decide as Hline.
    + split; [done |]. intros H. exfalso. by apply (H i line); [left |].
    + rewrite IH. split.
      * intros H j l [[= -> ->] | Hin]%elem_of_cons; eauto.
      * intros H j l Hin. apply (H j l). by right.
Qed.

Lemma is_empty_set_iff (formulas_set : list string) :
  is_empty_set formulas_set = true ↔ formulas_set = [""].
Proof.
  unfold is_empty_set. split.
  - intros [Hin Hlen]%andb_prop.
    apply bool_decide_eq_true in Hin, Hlen.
    destruct formulas_set as [| f [| g rest]]; try done.
    by apply list_elem_of_singleton in Hin as ->.
  - intros ->. done.
Qed.

Section OperationsProperties.
Context `{Interp : LpInterpreter}.

(** X26: at the level of the dicts the table hands back: when the shared
    table is built and both formulas parse, [check_equivalence] returns
    that table with a flag that is true exactly when the dict fetched
    under the first formula's rendering and the dict fetched under the
    second formula's rendering have the same indexes, and false exactly
    when some index is in one of the two dicts and not in the other. *)
Theorem check_equivalence_iff_same_models
        (formula1 formula2 : string) (truth_table : SetTruthTable)
        (e1 e2 : Symbol) (models1 models2 : gmap nat Valuation) :
  SetTruthTable_new [formula1; formula2] = Some truth_table →
  Interpreter_parse_expression formula1 = Some e1 →
  Interpreter_parse_expression formula2 = Some e2 →
  get_formula_models truth_table (str_representation e1) = Some models1 →
  get_formula_models truth_table (str_representation e2) = Some models2 →
  ∃ equivalent,
    check_equivalence formula1 formula2 = Some (equivalent, truth_table)
    ∧ (equivalent = true ↔ dom models1 = dom models2)
    ∧ (equivalent = false
       ↔ ∃ i, (i ∈ dom models1 ∧ i ∉ dom models2)
              ∨ (i ∈ dom models2 ∧ i ∉ dom models1)).
Proof.
  intros Htable He1 He2 Hm1 Hm2. unfold check_equivalence.
  rewrite Htable. simpl. rewrite He1. simpl. rewrite He2. simpl.
  rewrite Hm1. simpl. rewrite Hm2. simpl.
  eexists. split; [reflexivity |].
  destruct (indexes_all_in (map_to_list models1) models2) eqn:H12.
  - destruct (indexes_all_in (map_to_list models2) models1) eqn:H21.
    + apply indexes_all_in_dom in H12, H21. split.
      * split; [intros _ | done]. by apply set_eq_subseteq.
      * split; [done |]. intros (i & [[] | []]); set_solver.
    + apply indexes_all_in_dom in H12.
      pose proof H21 as (i & Hi & Hni)%indexes_all_in_missing. split.
      * split; [done |]. intros Heq. rewrite Heq in Hni. done.
      * split; [intros _ | done]. exists i. by right.
  - pose proof H12 as (i & Hi & Hni)%indexes_all_in_missing. split.
    + split; [done |]. intros Heq. rewrite Heq in Hi. done.
    + split; [intros _ | done]. exists i. by left.
Qed.

(** X27: at the level of the dicts the table hands back: for a premise
    list other than the one empty string, when the shared table of the
    premises and the conclusion is built and every formula parses,
    [LogicConsequence.perform] answers SIM exactly when every index of the
    dict returned by [get_formulas_set_models] for the premise dict is an
    index of the dict fetched under the conclusion's rendering, and NAO
    exactly when that fails. *)
Theorem LogicConsequence_perform_iff_models_included
        (formulas_set : list string) (formula : string)
        (truth_table : SetTruthTable) (e : Symbol)
        (formulas : gmap string Symbol)
        (set_models formula_models : gmap nat Valuation) (table : string) :
  formulas_set ≠ [""] →
  SetTruthTable_new (formulas_set ++ [formula]) = Some truth_table →
  Interpreter_parse_expression formula = Some e →
  premises_by_rendering formulas_set ∅ = Some formulas →
  get_formulas_set_models truth_table (Some formulas) = Some set_models →
  get_formula_models truth_table (str_representation e)
  = Some formula_models →
  SetTruthTable_str_representation truth_table = Some table →
  (LogicConsequence_perform formulas_set formula
   = Some (format_result "SIM" table)
   ↔ dom set_models ⊆ dom formula_models)
  ∧ (LogicConsequence_perform formulas_set formula
     = Some (format_result "NAO" table)
     ↔ ¬ dom set_models ⊆ dom formula_models).
Proof.
  intros Hguard Htable He Hforms Hset Hmodels Hrepr.
  unfold LogicConsequence_perform.
  destruct (is_empty_set formulas_set) eqn:Hempty;
    [by apply is_empty_set_iff in Hempty |].
  rewrite Htable. simpl. rewrite He. simpl. rewrite Hforms. simpl.
  rewrite Hset. simpl. rewrite Hmodels. simpl. rewrite Hrepr. simpl.
  rewrite <- indexes_all_in_dom.
  destruct (indexes_all_in (map_to_list set_models) formula_models);
    split; split; done.
Qed.

(** What the truth values of a single-formula table contain. *)
Lemma elem_of_formula_values (valuations : gmap nat (Valuation * bool))
      (b : bool) :
  b ∈ formula_values_of valuations
  ↔ ∃ i line, valuations !! i = Some line ∧ line.2 = b.
Proof.
  unfold formula_values_of. rewrite list_elem_of_fmap. split.
  - intros ([i line] & -> & Hin%elem_of_map_to_list). eauto.
  - intros (i & line & Hi & <-). exists (i, line).
    split; [done |]. by apply elem_of_map_to_list.
Qed.

(** C5: from the premise list holding only the empty string,
    [LogicConsequence.perform] answers SIM exactly when no line of the
    formula's own table has the value false; when that table has a line,
    this is exactly when [SemanticStatus.perform] answers TAUTOLOGIA. *)
Theorem consequence_of_empty_set_iff_tautology
        (formula : string) (truth_table : TruthTable)
        (valuations : gmap nat (Valuation * bool)) (table : string) :
  TruthTable_new formula = Some truth_table →
  get_formula_valuations truth_table = Some valuations →
  TruthTable_str_representation truth_table = Some table →
  (LogicConsequence_perform [""] formula = Some (format_result "SIM" table)
   ↔ ∀ i line, valuations !! i = Some line → line.2 ≠ false)
  ∧ (valuations ≠ ∅ →
     (LogicConsequence_perform [""] formula
      = Some (format_result "SIM" table)
      ↔ SemanticStatus_perform formula
        = Some (format_result "TAUTOLOGIA" table))).
Proof.
  intros Htable Hvals Hrepr.
  assert (Hsim : LogicConsequence_perform [""] formula
                 = Some (format_result "SIM" table)
                 ↔ ∀ i line, valuations !! i = Some line → line.2 ≠ false).
  { unfold LogicConsequence_perform.
    replace (is_empty_set [""]) with true by done.
    unfold is_logic_consequence_of_empty_set.
    rewrite Htable. simpl. rewrite Hvals. simpl. rewrite Hrepr. simpl.
    destruct (no_false_line (map_to_list valuations)) eqn:Hloop.
    - split; [intros _ | done].
      intros i line Hi. eapply no_false_line_true; [exact Hloop |].
      by apply elem_of_map_to_list.
    - split.
      + done.
      + intros H. exfalso.
        apply not_true_iff_false in Hloop. apply Hloop.
        apply no_false_line_true.
        intros i line Hin%elem_of_map_to_list. eauto. }
  split; [exact Hsim |].
  intros Hne. rewrite Hsim. unfold SemanticStatus_perform.
  rewrite Htable. simpl. rewrite Hvals. simpl. rewrite Hrepr. simpl.
  destruct (check_status_cases (formula_values_of valuations))
    as (Htaut & _).
  split.
  - intros Hall. do 2 f_equal. apply Htaut. split.
    + apply map_choose in Hne as (i & [v b] & Hi).
      apply elem_of_formula_values. exists i, (v, b). split; [done |].
      specialize (Hall i (v, b) Hi). simpl in *. by destruct b.
    + intros (i & line & Hi & Hb)%elem_of_formula_values.
      by apply (Hall i line).
  - intros H%(inj Some)%format_result_verdict;
      [| apply check_status_range | repeat constructor].
    apply Htaut in H as [_ Hnofalse].
    intros i line Hi Hb. apply Hnofalse.
    apply elem_of_formula_values. eauto.
Qed.

(** On a table without lines the two verdicts part: the consequence check
    answers SIM while the status is CONTINGENCIA. *)
Lemma empty_table_verdicts
      (formula : string) (truth_table : TruthTable) (table : string) :
  TruthTable_new formula = Some truth_table →
  get_formula_valuations truth_table = Some ∅ →
  TruthTable_str_representation truth_table = Some table →
  LogicConsequence_perform [""] formula = Some (format_result "SIM" table)
  ∧ SemanticStatus_perform formula
    = Some (format_result "CONTINGENCIA" table).
Proof.
  intros Htable Hvals Hrepr.
  unfold LogicConsequence_perform, is_logic_consequence_of_empty_set,
    SemanticStatus_perform.
  replace (is_empty_set [""]) with true by done.
  rewrite Htable. simpl. rewrite Hvals. simpl. rewrite Hrepr. simpl.
  unfold formula_values_of. rewrite map_to_list_empty. done.
Qed.

End OperationsProperties.

(** ** The operations on the engine *)

Section OnTheEngine.
#[local] Existing Instance Engine.interpreter.

(** [p->q] and [-p|q] on the engine: the shared table is built, both
    formulas parse, and the flag is true. *)
Lemma check_equivalence_iff_same_models_witness :
  ∃ truth_table e1 e2 models1 models2,
    (SetTruthTable_new ["p->q"; "-p|q"] = Some truth_table
     ∧ Interpreter_parse_expression "p->q" = Some e1
     ∧ Interpreter_parse_expression "-p|q" = Some e2
     ∧ get_formula_models truth_table (str_representation e1) = Some models1
     ∧ get_formula_models truth_table (str_representation e2) = Some models2)
    ∧ ∃ equivalent,
        check_equivalence "p->q" "-p|q" = Some (equivalent, truth_table)
        ∧ (equivalent = true ↔ dom models1 = dom models2)
        ∧ (equivalent = false
           ↔ ∃ i, (i ∈ dom models1 ∧ i ∉ dom models2)
                  ∨ (i ∈ dom models2 ∧ i ∉ dom models1)).
Proof.
  eexists _, _, _, _, _.
  split; [repeat split; reflexivity |].
  eapply (check_equivalence_iff_same_models (Interp := Engine.interpreter));
    reflexivity.
Defined.

(** Modus ponens on the engine: [q] from [p] and [p->q]. *)
Lemma LogicConsequence_perform_iff_models_included_witness :
  ∃ truth_table e formulas set_models formula_models table,
    (["p"; "p->q"] ≠ [""]
     ∧ SetTruthTable_new (["p"; "p->q"] ++ ["q"]) = Some truth_table
     ∧ Interpreter_parse_expression "q" = Some e
     ∧ premises_by_rendering ["p"; "p->q"] ∅ = Some formulas
     ∧ get_formulas_set_models truth_table (Some formulas) = Some set_models
     ∧ get_formula_models truth_table (str_representation e)
       = Some formula_models
     ∧ SetTruthTable_str_representation truth_table = Some table)
    ∧ (LogicConsequence_perform ["p"; "p->q"] "q"
       = Some (format_result "SIM" table)
       ↔ dom set_models ⊆ dom formula_models)
    ∧ (LogicConsequence_perform ["p"; "p->q"] "q"
       = Some (format_result "NAO" table)
       ↔ ¬ dom set_models ⊆ dom formula_models).
Proof.
  eexists _, _, _, _, _, _.
  split; [repeat split; (discriminate || reflexivity) |].
  eapply (LogicConsequence_perform_iff_models_included
            (Interp := Engine.interpreter));
    (discriminate || reflexivity).
Defined.

(** [p|-p] on the engine: its table has lines, none of them false. *)
Lemma consequence_of_empty_set_iff_tautology_witness :
  ∃ truth_table valuations table,
    (TruthTable_new "p|-p" = Some truth_table
     ∧ get_formula_valuations truth_table = Some valuations
     ∧ TruthTable_str_representation truth_table = Some table)
    ∧ (LogicConsequence_perform [""] "p|-p"
       = Some (format_result "SIM" table)
       ↔ ∀ i line, valuations !! i = Some line → line.2 ≠ false)
    ∧ (valuations ≠ ∅ →
       (LogicConsequence_perform [""] "p|-p"
        = Some (format_result "SIM" table)
        ↔ SemanticStatus_perform "p|-p"
          = Some (format_result "TAUTOLOGIA" table))).
Proof.
  eexists _, _, _.
  split; [repeat split; reflexivity |].
  eapply (consequence_of_empty_set_iff_tautology
            (Interp := Engine.interpreter)); reflexivity.
Defined.

(** The scenarios of the design document, run on the engine. *)
Example scenario_status_tautology :
  SemanticStatus_perform "p|-p" = Some "[TAUTOLOGIA, [TT, FT]]".
Proof. vm_compute. reflexivity. Qed.

Example scenario_status_contradiction :
  SemanticStatus_perform "p&-p" = Some "[CONTRADICAO, [TF, FF]]".
Proof. vm_compute. reflexivity. Qed.

Example scenario_equivalence :
  SemanticEquivalence_perform "p->q" "-p|q"
  = Some "[SIM, [TTTT, TFFF, FTTT, FFTT]]".
Proof. vm_compute. reflexivity. Qed.

Example scenario_consistency :
  Consistency_perform ["p"; "-p"] = Some "[NAO, [TTF, FFT]]".
Proof. vm_compute. reflexivity. Qed.

Example scenario_modus_ponens :
  LogicConsequence_perform ["p"; "p->q"] "q"
  = Some "[SIM, [TTTTT, TFTFF, FTFTT, FFFTF]]".
Proof. vm_compute. reflexivity. Qed.

Example scenario_not_a_consequence :
  LogicConsequence_perform ["p|q"] "q"
  = Some "[NAO, [TTTT, TFTF, FTTT, FFFF]]".
Proof. vm_compute. reflexivity. Qed.

Example scenario_empty_set :
  LogicConsequence_perform [""] "q|-q" = Some "[SIM, [TT, FT]]"
  ∧ LogicConsequence_perform [""] "q" = Some "[NAO, [TT, FF]]".
Proof. split; vm_compute; reflexivity. Qed.

Example scenario_precedence :
  Engine.parse_expression "p&q|r"
  = Some (BinaryOperator Disjunction "|"
            (BinaryOperator Conjunction "&"
               (PropositionalSymbol "p") (PropositionalSymbol "q"))
            (PropositionalSymbol "r")).
Proof. vm_compute. reflexivity. Qed.

End OnTheEngine.

(** * Further properties of the two modules *)

(** ** The recognizers of the token classes *)

Lemma list_ascii_of_string_inj (s t : string) :
  list_ascii_of_string s = list_ascii_of_string t → s = t.
Proof.
  intros H. rewrite <- (string_of_list_ascii_of_string s),
    <- (string_of_list_ascii_of_string t). by rewrite H.
Qed.

(** A run of literal characters before [k] succeeds exactly on the
    subjects that start with those characters and go on with something
    [k] succeeds on. *)
Lemma literal_pattern_is_Some (cs : list ascii) (k : Re.cont) :
  ∀ (c : ascii) (pos : nat) (s : list ascii),
    is_Some (Re.run (literal_pattern c cs) pos s k)
    ↔ ∃ s', s = (c :: cs ++ s')%list
            ∧ is_Some (k (pos + S (length cs))%nat s').
Proof.
  induction cs as [| d cs IH]; intros c pos s;
    cbn [literal_pattern Re.run]; destruct s as [| e s].
  - split; [by intros [? [=]] | by intros (s' & [=] & _)].
  - destruct (Re.code e =? Re.code c)%N eqn:He.
    + apply code_inj in He as ->. split.
      * intros H. exists s. split; [done |]. by rewrite Nat.add_1_r.
      * intros (s' & [= ->] & H). by rewrite Nat.add_1_r in H.
    + split; [by intros [? [=]] |]. intros (s' & [= -> ->] & _).
      by rewrite N.eqb_refl in He.
  - split; [by intros [? [=]] | by intros (s' & [=] & _)].
  - destruct (Re.code e =? Re.code c)%N eqn:He.
    + apply code_inj in He as ->. rewrite IH. split.
      * intros (s' & -> & H). exists s'. split; [done |].
        cbn [length]. by rewrite Nat.add_succ_r.
      * intros (s' & [= ->] & H). exists s'. split; [done |].
        cbn [length] in H. by rewrite Nat.add_succ_r in H.
    + split; [by intros [? [=]] |]. intros (s' & [= -> ->] & _).
      by rewrite N.eqb_refl in He.
Qed.

(** Between the two anchors, a run of literal characters accepts the run
    itself, with or without one line feed after it. *)
Lemma anchored_literal_is_Some (c : ascii) (cs l : list ascii) :
  is_Some (Re.run (Re.Cat Re.Bol (Re.Cat (literal_pattern c cs) Re.Eol))
                  0 l (λ pos _, Some pos))
  ↔ l = c :: cs ∨ l = (c :: cs ++ [newline])%list.
Proof.
  cbn [Re.run Nat.eqb]. rewrite literal_pattern_is_Some. split.
  - intros (s' & -> & H).
    destruct (Re.at_eol s') eqn:Heol; [| by destruct H].
    apply at_eol_cases in Heol as [-> | ->];
      [left; by rewrite app_nil_r | by right].
  - intros [-> | ->].
    + exists []. rewrite app_nil_r. split; [done | by eexists].
    + exists [newline]. split; [done | by eexists].
Qed.

(** X1: [PropositionalSymbol.evaluate] accepts exactly the texts made of
    one lowercase letter followed by digits, with or without one line feed
    after them. *)
Theorem PropositionalSymbol_evaluate_accepts (symbol : string) :
  is_Some (evaluate PropositionalSymbol_ symbol)
  ↔ letter_then_digits (list_ascii_of_string symbol)
    ∨ ∃ s, list_ascii_of_string symbol = (s ++ [newline])%list
           ∧ letter_then_digits s.
Proof. exact (evaluate_PropositionalSymbol_iff symbol). Qed.

(** X2: [Symbol.evaluate] accepts exactly the texts made of lowercase
    letters, digits, [&], [-], [|], [>], [<] and the two parentheses, with
    or without one line feed after them. *)
Theorem Symbol_evaluate_accepts (symbol : string) :
  is_Some (evaluate Symbol_ symbol)
  ↔ ∃ body, forallb accepted_char body = true
            ∧ (list_ascii_of_string symbol = body
               ∨ list_ascii_of_string symbol = (body ++ [newline])%list).
Proof. exact (evaluate_Symbol_iff symbol). Qed.

(** X3: the [pattern] of each operator class accepts exactly the class's
    own [SYMBOL], with or without one line feed after it. *)
Theorem operator_pattern_accepts_its_SYMBOL (o : OperatorClass)
        (symbol : string) :
  is_Some (evaluate (Concrete o) symbol)
  ↔ symbol = SYMBOL o ∨ symbol = SYMBOL o +:+ newline_string.
Proof.
  assert (Hlist : ∀ t : string,
             symbol = t ↔ list_ascii_of_string symbol = list_ascii_of_string t).
  { intros t. split; [by intros -> | apply list_ascii_of_string_inj]. }
  rewrite !Hlist. unfold evaluate, Re.match_.
  destruct o as [[] | []].
  - exact (anchored_literal_is_Some "-" [] _).
  - exact (anchored_literal_is_Some "&" [] _).
  - exact (anchored_literal_is_Some "|" [] _).
  - exact (anchored_literal_is_Some "-" [">"%char] _).
  - exact (anchored_literal_is_Some "<" ["-"; ">"]%char _).
Qed.

(** X4: the patterns of the punctuation classes: [OpeningParenthesis]
    accepts the opening parenthesis, [ClosingParenthesis] the closing one
    and [PontuationSymbol] either of them, each with or without one line
    feed after it, and nothing else. *)
Theorem pontuation_patterns_accept (symbol : string) :
  (is_Some (evaluate OpeningParenthesis_ symbol)
   ↔ symbol = "(" ∨ symbol = "(" +:+ newline_string)
  ∧ (is_Some (evaluate ClosingParenthesis_ symbol)
     ↔ symbol = ")" ∨ symbol = ")" +:+ newline_string)
  ∧ (is_Some (evaluate PontuationSymbol_ symbol)
     ↔ is_Some (evaluate OpeningParenthesis_ symbol)
       ∨ is_Some (evaluate ClosingParenthesis_ symbol)).
Proof.
  assert (Hlist : ∀ t : string,
             symbol = t ↔ list_ascii_of_string symbol = list_ascii_of_string t).
  { intros t. split; [by intros -> | apply list_ascii_of_string_inj]. }
  rewrite !Hlist. unfold evaluate, Re.match_.
  pose proof (anchored_literal_is_Some "(" [] (list_ascii_of_string symbol))
    as Hopen.
  pose proof (anchored_literal_is_Some ")" [] (list_ascii_of_string symbol))
    as Hclose.
  split; [exact Hopen |]. split; [exact Hclose |].
  cbn [pattern Pat.pontuation literal_pattern Re.run Nat.eqb] in *.
  destruct (list_ascii_of_string symbol) as [| d l].
  - split; [by intros [? [=]] | by intros [[? [=]] | [? [=]]]].
  - unfold Re.in_set. cbn [existsb Re.in_item]. rewrite orb_false_r.
    destruct (Re.code d =? Re.code "(")%N, (Re.code d =? Re.code ")")%N;
      cbn [orb]; split; try tauto.
    all: intros [H | H]; done || by destruct H as [? [=]].
Qed.

(** X5: for a class that has an [accepted_initial_char], every text its
    [pattern] accepts starts with a character that
    [accepts_initial_char] accepts. *)
Theorem accepted_text_starts_with_accepted_char (cls : SymbolClass)
        (symbol : string) :
  is_Some (accepted_initial_char cls) →
  is_Some (evaluate cls symbol) →
  ∃ c rest, symbol = String c rest
            ∧ accepts_initial_char cls (String c EmptyString)
              = Some (Some 1%nat).
Proof.
  assert (Hliteral : ∀ c cs,
    list_ascii_of_string symbol = c :: cs
    ∨ list_ascii_of_string symbol = (c :: cs ++ [newline])%list →
    ∃ rest, symbol = String c rest).
  { intros c cs H. destruct symbol as [| d rest]; simpl in H.
    - by destruct H.
    - exists rest. by destruct H as [[= ->] | [= ->]]. }
  intros [p Hp] Hev.
  destruct cls as [| | | | | | | | [[] | []]]; try discriminate Hp;
    unfold evaluate, Re.match_ in Hev.
  - apply evaluate_PropositionalSymbol_iff in Hev.
    assert (∃ c ds, list_ascii_of_string symbol = c :: ds
                    ∧ is_lower c = true) as (c & ds & Hsym & Hc).
    { destruct Hev as [(c & ds & -> & Hc & _) | (s & -> & c & ds & -> & Hc & _)];
        eauto. }
    destruct symbol as [| d rest]; [done |]. injection Hsym as -> _.
    exists c, rest. split; [done |].
    unfold accepts_initial_char, Re.match_.
    cbn [accepted_initial_char mbind option_bind Re.run Nat.eqb
         list_ascii_of_string].
    replace (Re.in_set [Re.Range "a" "z"] c) with true; [done |].
    unfold Re.in_set. cbn [existsb]. rewrite orb_false_r.
    symmetry. exact Hc.
  - apply (anchored_literal_is_Some "(" []), Hliteral in Hev as [rest ->].
    by eexists _, _.
  - apply (anchored_literal_is_Some ")" []), Hliteral in Hev as [rest ->].
    by eexists _, _.
  - apply (anchored_literal_is_Some "-" []), Hliteral in Hev as [rest ->].
    by eexists _, _.
  - apply (anchored_literal_is_Some "&" []), Hliteral in Hev as [rest ->].
    by eexists _, _.
  - apply (anchored_literal_is_Some "|" []), Hliteral in Hev as [rest ->].
    by eexists _, _.
  - apply (anchored_literal_is_Some "-" [">"%char]), Hliteral
      in Hev as [rest ->].
    by eexists _, _.
  - apply (anchored_literal_is_Some "<" ["-"; ">"]%char), Hliteral
      in Hev as [rest ->].
    by eexists _, _.
Qed.

Lemma accepted_text_starts_with_accepted_char_witness :
  ∃ c rest, "->" = String c rest
            ∧ accepts_initial_char (Concrete (Binary Implication))
                                   (String c EmptyString)
              = Some (Some 1%nat).
Proof.
  apply (accepted_text_starts_with_accepted_char
           (Concrete (Binary Implication)) "->").
  - by eexists.
  - by eexists.
Defined.

(** ** The rendering *)

Lemma string_append_assoc (s t u : string) :
  (s +:+ t) +:+ u = s +:+ (t +:+ u).
Proof.
  induction s as [| c s IH]; [done |].
  change (String c ((s +:+ t) +:+ u) = String c (s +:+ (t +:+ u))).
  by f_equal.
Qed.

Lemma string_append_nil_r (s : string) : s +:+ "" = s.
Proof.
  induction s as [| c s IH]; [done |].
  change (String c (s +:+ "") = String c s). by f_equal.
Qed.

Lemma all_chars_append (p : ascii → bool) (s t : string) :
  all_chars p (s +:+ t) = all_chars p s && all_chars p t.
Proof.
  induction s as [| c s IH]; simpl; [done |].
  by rewrite IH, andb_assoc.
Qed.

Lemma all_chars_impl (p q : ascii → bool) (s : string) :
  (∀ c, p c = true → q c = true) →
  all_chars p s = true → all_chars q s = true.
Proof.
  intros Hpq. induction s as [| c s IH]; simpl; [done |].
  intros [Hc Hs]%andb_prop. by rewrite (Hpq c Hc), (IH Hs).
Qed.

Lemma all_chars_forallb (p : ascii → bool) (s : string) :
  all_chars p s = forallb p (list_ascii_of_string s).
Proof. induction s as [| c s IH]; simpl; [done | by rewrite IH]. Qed.

Lemma no_parenthesis_same_class (c : BinaryClass) (v : string)
      (a b : Symbol) :
  no_parenthesis c (BinaryOperator c v a b) = true.
Proof.
  unfold no_parenthesis, is_a_Operator. simpl. apply Z.leb_refl.
Qed.

(** X6: a binary operator nested in itself on the left and the same
    operator nested in itself on the right render alike, whatever the
    three operands: [(a&b)&d] and [a&(b&d)] are two trees with one
    rendering, and so for each of the four binary operators. *)
Theorem both_nestings_render_alike
        (c : BinaryClass) (v1 v2 v3 v4 : string) (a b d : Symbol) :
  str_representation (BinaryOperator c v1 (BinaryOperator c v2 a b) d)
  = str_representation (BinaryOperator c v3 a (BinaryOperator c v4 b d))
  ∧ BinaryOperator c v1 (BinaryOperator c v2 a b) d
    ≠ BinaryOperator c v3 a (BinaryOperator c v4 b d).
Proof.
  split.
  - cbn [str_representation]. rewrite !no_parenthesis_same_class.
    by rewrite !string_append_assoc.
  - intros H. injection H as _ Ha _.
    apply (f_equal node_count) in Ha. simpl in Ha. lia.
Qed.

Lemma variable_name_accepted (value : string) :
  is_variable_name value = true → all_chars accepted_char value = true.
Proof.
  destruct value as [| c ds]; [done |]. simpl.
  intros [Hc Hds]%andb_prop. apply andb_true_intro. split.
  - unfold accepted_char. by rewrite Hc.
  - eapply all_chars_impl; [| exact Hds].
    intros d Hd. unfold accepted_char. rewrite Hd. by rewrite orb_true_r.
Qed.

Lemma rendering_chars_accepted (e : Symbol) :
  well_named e = true → all_chars accepted_char (str_representation e) = true.
Proof.
  assert (Hsym : ∀ o, all_chars accepted_char (SYMBOL o) = true)
    by (by intros [[] | []]).
  induction e as [v | c v a IHa | c v a IHa b IHb];
    cbn [well_named str_representation].
  - apply variable_name_accepted.
  - intros Ha. destruct (is_a_PropositionalSymbol a);
      rewrite !all_chars_append, Hsym, (IHa Ha); done.
  - intros [Ha Hb]%andb_prop.
    destruct (no_parenthesis c a), (no_parenthesis c b);
      rewrite !all_chars_append, Hsym, (IHa Ha), (IHb Hb); done.
Qed.

(** X7: the rendering of a tree whose variables are named by a lowercase
    letter followed by digits is a text that [Symbol.evaluate]
    accepts. *)
Theorem rendering_is_accepted (e : Symbol) :
  well_named e = true →
  is_Some (evaluate Symbol_ (str_representation e)).
Proof.
  intros Hnames. apply evaluate_Symbol_iff.
  exists (list_ascii_of_string (str_representation e)).
  split; [| by left].
  rewrite <- all_chars_forallb. by apply rendering_chars_accepted.
Qed.

Lemma rendering_is_accepted_witness :
  is_Some (evaluate Symbol_ (str_representation not_not_p)).
Proof. apply rendering_is_accepted. reflexivity. Defined.

Lemma depth_after_append (s t : string) :
  ∀ d, depth_after d (s +:+ t) = depth_after d s ≫= λ d', depth_after d' t.
Proof.
  induction s as [| c s IH]; intros d; simpl; [done |].
  destruct (Ascii.eqb c "("); [apply IH |].
  destruct (Ascii.eqb c ")"); [by destruct d | apply IH].
Qed.

Lemma depth_after_accepted_name (value : string) (d : nat) :
  is_variable_name value = true → depth_after d value = Some d.
Proof.
  intros Hname.
  assert (Hplain : all_chars (λ c, is_lower c || is_digit c) value = true).
  { destruct value as [| c ds]; [done |]. simpl in *.
    apply andb_prop in Hname as [Hc Hds]. rewrite Hc. simpl.
    eapply all_chars_impl; [| exact Hds].
    intros x Hx. by rewrite Hx, orb_true_r. }
  clear Hname. induction value as [| c s IH]; simpl in *; [done |].
  apply andb_prop in Hplain as [Hc Hs].
  destruct (Ascii.eqb_spec c "(") as [-> | _]; [done |].
  destruct (Ascii.eqb_spec c ")") as [-> | _]; [done |].
  by apply IH.
Qed.

(** X8: in the rendering of a tree whose variables are named by a
    lowercase letter followed by digits, the parentheses are balanced:
    read from any nesting depth, the text comes back to that depth, and no
    closing parenthesis comes with nothing open. *)
Theorem rendering_parentheses_balanced (e : Symbol) (d : nat) :
  well_named e = true →
  depth_after d (str_representation e) = Some d.
Proof.
  assert (Hsym : ∀ o n, depth_after n (SYMBOL o) = Some n)
    by (by intros [[] | []]).
  assert (Hw : ∀ s n, (∀ m, depth_after m s = Some m) →
             depth_after n ("(" +:+ s +:+ ")") = Some n).
  { intros s n Hs. change ("(" +:+ s +:+ ")") with (String "(" (s +:+ ")")).
    cbn [depth_after Ascii.eqb Bool.eqb]. by rewrite depth_after_append, Hs. }
  intros Hnames. revert d.
  induction e as [v | c v a IHa | c v a IHa b IHb]; intros d;
    cbn [well_named str_representation] in *.
  - by apply depth_after_accepted_name.
  - specialize (IHa Hnames).
    destruct (is_a_PropositionalSymbol a);
      rewrite depth_after_append, Hsym; simpl; [apply IHa | by apply Hw].
  - apply andb_prop in Hnames as [Ha Hb].
    specialize (IHa Ha). specialize (IHb Hb).
    set (t1 := if no_parenthesis c a then _ else _).
    set (t2 := if no_parenthesis c b then _ else _).
    assert (H1 : ∀ n, depth_after n t1 = Some n).
    { intros n. subst t1. destruct (no_parenthesis c a); [apply IHa |].
      by apply Hw. }
    assert (H2 : ∀ n, depth_after n t2 = Some n).
    { intros n. subst t2. destruct (no_parenthesis c b); [apply IHb |].
      by apply Hw. }
    rewrite depth_after_append, H1. cbn [mbind option_bind].
    rewrite depth_after_append, Hsym. cbn [mbind option_bind]. apply H2.
Qed.

Lemma rendering_parentheses_balanced_witness :
  depth_after 0 (str_representation not_not_p) = Some 0%nat.
Proof. apply rendering_parentheses_balanced. reflexivity. Defined.

(** X9: [subformulas] is closed under taking subformulas: whatever is
    listed for a formula listed for [e] is listed for [e]; and the
    arguments of [e] are listed for it. *)
Theorem subformulas_closed (e x y : Symbol) :
  (x ∈ subformulas e → y ∈ subformulas x → y ∈ subformulas e)
  ∧ (x ∈ args e → x ∈ subformulas e).
Proof.
  assert (Hself : ∀ z, z ∈ subformulas z) by (intros []; simpl; by left).
  split.
  - induction e as [v | c v a IHa | c v a IHa b IHb]; simpl.
    + by intros ->%list_elem_of_singleton.
    + intros [-> | Hx]%elem_of_cons Hy; [done |]. right. by apply IHa.
    + intros [-> | [Hx | Hx]%elem_of_app]%elem_of_cons Hy; [done | |];
        right; apply elem_of_app; [left; by apply IHa | right; by apply IHb].
  - destruct e as [v | c v a | c v a b]; simpl.
    + by intros H%elem_of_nil.
    + intros ->%list_elem_of_singleton. right. apply Hself.
    + intros [-> | ->%list_elem_of_singleton]%elem_of_cons;
        right; apply elem_of_app; [left | right]; apply Hself.
Qed.

(** X10: the rendering of every subformula of [e] is a part of the
    rendering of [e]. *)
Theorem subformula_rendering_is_substring (e x : Symbol) :
  x ∈ subformulas e →
  ∃ before after,
    str_representation e = before +:+ str_representation x +:+ after.
Proof.
  set (part := λ s : string,
         ∃ before after, s = before +:+ str_representation x +:+ after).
  assert (Hself : part (str_representation x)).
  { exists "", "". by rewrite string_append_nil_r. }
  assert (Hleft : ∀ pre s, part s → part (pre +:+ s)).
  { intros pre s (b0 & a0 & ->). exists (pre +:+ b0), a0.
    by rewrite !string_append_assoc. }
  assert (Hright : ∀ s post, part s → part (s +:+ post)).
  { intros s post (b0 & a0 & ->). exists b0, (a0 +:+ post).
    by rewrite !string_append_assoc. }
  assert (Harg : ∀ (bare : bool) s,
             part s → part (if bare then s else "(" +:+ s +:+ ")")).
  { intros [] s Hs; [done |]. by apply Hleft, Hright. }
  change (x ∈ subformulas e → part (str_representation e)).
  induction e as [v | c v a IHa | c v a IHa b IHb];
    cbn [subformulas app].
  - by intros ->%list_elem_of_singleton.
  - intros [-> | Hx]%elem_of_cons; [done |].
    cbn [str_representation].
    destruct (is_a_PropositionalSymbol a).
    + by apply Hleft, IHa.
    + by apply Hleft, (Harg false), IHa.
  - intros [-> | [Hx | Hx]%elem_of_app]%elem_of_cons; [done | |];
      cbn [str_representation].
    + by apply Hright, Harg, IHa.
    + by apply Hleft, Hleft, Harg, IHb.
Qed.

Lemma subformula_rendering_is_substring_witness :
  ∃ before after,
    str_representation not_not_p = before +:+ str_representation not_p +:+ after.
Proof.
  apply subformula_rendering_is_substring. right. left.
Defined.

(** ** The verdicts *)

(** X11: negating every truth value swaps the two extreme verdicts of
    [check_status] and keeps the middle one: the negated list is a
    tautology's exactly when the list is a contradiction's, and the other
    way round. *)
Theorem check_status_of_negated_values (formula_values : list bool) :
  (check_status (negb <$> formula_values) = "TAUTOLOGIA"
   ↔ check_status formula_values = "CONTRADICAO")
  ∧ (check_status (negb <$> formula_values) = "CONTRADICAO"
     ↔ check_status formula_values = "TAUTOLOGIA")
  ∧ (check_status (negb <$> formula_values) = "CONTINGENCIA"
     ↔ check_status formula_values = "CONTINGENCIA").
Proof.
  assert (Hin : ∀ b, b ∈ negb <$> formula_values ↔ negb b ∈ formula_values).
  { intros b. rewrite list_elem_of_fmap. split.
    - intros (y & -> & Hy). by rewrite negb_involutive.
    - intros H. exists (negb b). by rewrite negb_involutive. }
  destruct (check_status_cases formula_values) as (Ht & Hc & Hg).
  destruct (check_status_cases (negb <$> formula_values))
    as (Ht' & Hc' & Hg').
  rewrite Ht, Hc, Hg, Ht', Hc', Hg', !Hin. simpl. tauto.
Qed.

(** X12: [check_status] looks only at which truth values occur: two lists
    with the same members get the same verdict, whatever their order and
    repetitions. *)
Theorem check_status_same_members (values values' : list bool) :
  (∀ b, b ∈ values ↔ b ∈ values') →
  check_status values = check_status values'.
Proof.
  intros Hsame. unfold check_status.
  rewrite (bool_decide_ext (true ∈ values) (true ∈ values')) by apply Hsame.
  by rewrite (bool_decide_ext (false ∈ values) (false ∈ values'))
    by apply Hsame.
Qed.

Lemma check_status_same_members_witness :
  check_status [true; false] = check_status [false; true; true].
Proof.
  apply check_status_same_members.
  intros []; split; intros _; repeat constructor.
Defined.

Lemma list_ascii_of_string_append (s t : string) :
  list_ascii_of_string (s +:+ t)
  = (list_ascii_of_string s ++ list_ascii_of_string t)%list.
Proof.
  induction s as [| c s IH]; [done |].
  change (c :: list_ascii_of_string (s +:+ t)
          = c :: (list_ascii_of_string s ++ list_ascii_of_string t)%list).
  by f_equal.
Qed.

Lemma string_append_inj_r (s t u : string) : s +:+ u = t +:+ u → s = t.
Proof.
  intros H. apply list_ascii_of_string_inj.
  apply (f_equal list_ascii_of_string) in H.
  rewrite !list_ascii_of_string_append in H. by apply app_inv_tail in H.
Qed.

(** X13: the text ['[%s, [%s]]'] of a result can be read back: two
    results written for verdicts of the operations are the same text only
    when both the verdict and the table are the same. *)
Theorem format_result_inj (v1 v2 t1 t2 : string) :
  v1 ∈ ["SIM"; "NAO"; "TAUTOLOGIA"; "CONTRADICAO"; "CONTINGENCIA"] →
  v2 ∈ ["SIM"; "NAO"; "TAUTOLOGIA"; "CONTRADICAO"; "CONTINGENCIA"] →
  format_result v1 t1 = format_result v2 t2 → v1 = v2 ∧ t1 = t2.
Proof.
  intros H1 H2 H.
  pose proof (format_result_verdict v1 v2 t1 t2 H1 H2 H) as <-.
  split; [done |]. unfold format_result in H.
  apply (inj (String.app "[")), (inj (String.app v1)),
    (inj (String.app ", [")) in H.
  by apply string_append_inj_r in H.
Qed.

Lemma format_result_inj_witness :
  "SIM" = "SIM" ∧ "TT, FT" = "TT, FT".
Proof.
  apply format_result_inj; [repeat constructor .. | reflexivity].
Defined.

(** ** The operations *)

Lemma indexes_all_in_self {A : Type} (m : gmap nat A) :
  indexes_all_in (map_to_list m) m = true.
Proof. by apply indexes_all_in_dom. Qed.

Section MoreOperationsProperties.
Context `{Interp : LpInterpreter}.

(** X14: two formulas whose parsed trees render alike are always reported
    equivalent by [check_equivalence]: both model dicts are asked for
    under the same key.  A formula is so reported equivalent to itself,
    and so are [p->(q->r)] and [(p->q)->r]. *)
Theorem check_equivalence_of_same_rendering
        (formula1 formula2 : string) (truth_table : SetTruthTable)
        (e1 e2 : Symbol) (models : gmap nat Valuation) :
  SetTruthTable_new [formula1; formula2] = Some truth_table →
  Interpreter_parse_expression formula1 = Some e1 →
  Interpreter_parse_expression formula2 = Some e2 →
  str_representation e1 = str_representation e2 →
  get_formula_models truth_table (str_representation e1) = Some models →
  check_equivalence formula1 formula2 = Some (true, truth_table).
Proof.
  intros Htable He1 He2 Hsame Hmodels. unfold check_equivalence.
  rewrite Htable. simpl. rewrite He1. simpl. rewrite He2. simpl.
  rewrite <- Hsame, Hmodels. simpl.
  by rewrite indexes_all_in_self.
Qed.

(** X15: when the shared table is built, [Consistency.perform] answers
    SIM exactly when the dict of the set's models has some index, and NAO
    exactly when it has none. *)
Theorem Consistency_perform_iff_some_model
        (formulas : list string) (truth_table : SetTruthTable)
        (formulas_models : gmap nat Valuation) (table : string) :
  SetTruthTable_new formulas = Some truth_table →
  get_formulas_set_models truth_table None = Some formulas_models →
  SetTruthTable_str_representation truth_table = Some table →
  (Consistency_perform formulas = Some (format_result "SIM" table)
   ↔ ∃ i, i ∈ dom formulas_models)
  ∧ (Consistency_perform formulas = Some (format_result "NAO" table)
     ↔ dom formulas_models = ∅).
Proof.
  intros Htable Hmodels Hrepr. unfold Consistency_perform.
  rewrite Htable. simpl. rewrite Hmodels. simpl. rewrite Hrepr. simpl.
  rewrite dom_empty_iff_L.
  case_bool_decide as Hempty.
  - split; split; try done.
    intros [i Hi]. subst formulas_models. by rewrite dom_empty_L in Hi.
  - split; split; try done. intros _.
    apply map_choose in Hempty as (i & v & Hi). exists i.
    apply elem_of_dom. eauto.
Qed.

(** The dict filled by the premise loop, started from [formulas]. *)
Lemma premises_by_rendering_from (formulas_set : list string) :
  ∀ formulas result : gmap string Symbol,
    premises_by_rendering formulas_set formulas = Some result →
    (∀ key e, result !! key = Some e →
       formulas !! key = Some e
       ∨ (str_representation e = key
          ∧ ∃ f, f ∈ formulas_set ∧ Interpreter_parse_expression f = Some e))
    ∧ (∀ key, is_Some (formulas !! key) → is_Some (result !! key))
    ∧ (∀ f, f ∈ formulas_set →
         ∃ e, Interpreter_parse_expression f = Some e
              ∧ is_Some (result !! str_representation e))
    ∧ (size result ≤ size formulas + length formulas_set)%nat.
Proof.
  induction formulas_set as [| f rest IH]; intros formulas result; simpl.
  - intros [= <-]. repeat split; eauto.
    + by intros f H%elem_of_nil.
    + lia.
  - destruct (Interpreter_parse_expression f) as [form |] eqn:Hf; [| done].
    simpl. intros Hrest.
    destruct (IH _ _ Hrest) as (Hkeys & Hkept & Hall & Hsize).
    repeat split.
    + intros key e Hkey.
      destruct (Hkeys key e Hkey) as [Hin | (Hstr & g & Hg & Hparse)].
      * destruct (decide (str_representation form = key)) as [<- | Hne].
        -- rewrite lookup_insert_eq in Hin. injection Hin as <-.
           right. split; [done |]. exists f. split; [by left | done].
        -- rewrite lookup_insert_ne in Hin by done. by left.
      * right. split; [done |]. exists g. split; [by right | done].
    + intros key Hkey. apply Hkept.
      destruct (decide (str_representation form = key)) as [<- | Hne].
      * rewrite lookup_insert_eq. eauto.
      * by rewrite lookup_insert_ne.
    + intros g [-> | Hg]%elem_of_cons.
      * exists form. split; [done |]. apply Hkept.
        rewrite lookup_insert_eq. eauto.
      * by apply Hall.
    + etrans; [exact Hsize |].
      destruct (formulas !! str_representation form) as [old |] eqn:Hold.
      * rewrite map_size_insert_Some by eauto. lia.
      * rewrite map_size_insert_None by done. lia.
Qed.

(** X16: the dict of premises that [LogicConsequence.perform] fills is
    made when every premise parses and only then; each of its entries is a
    parsed premise under its own rendering, every premise is in it under
    its rendering, and it has at most as many entries as there are
    premises (premises that render alike share one). *)
Theorem premises_by_rendering_entries (formulas_set : list string) :
  (is_Some (premises_by_rendering formulas_set ∅)
   ↔ ∀ f, f ∈ formulas_set → is_Some (Interpreter_parse_expression f))
  ∧ ∀ formulas, premises_by_rendering formulas_set ∅ = Some formulas →
      (∀ key e, formulas !! key = Some e →
         str_representation e = key
         ∧ ∃ f, f ∈ formulas_set ∧ Interpreter_parse_expression f = Some e)
      ∧ (∀ f, f ∈ formulas_set →
           ∃ e, Interpreter_parse_expression f = Some e
                ∧ is_Some (formulas !! str_representation e))
      ∧ (size formulas ≤ length formulas_set)%nat.
Proof.
  split.
  - generalize (∅ : gmap string Symbol) as formulas.
    induction formulas_set as [| f rest IH]; intros formulas; simpl.
    + split; [by intros _ f H%elem_of_nil | eauto].
    + destruct (Interpreter_parse_expression f) as [form |] eqn:Hf; simpl.
      * rewrite IH. split.
        -- intros H g [-> | Hg]%elem_of_cons; [by rewrite Hf | by apply H].
        -- intros H g Hg. apply H. by right.
      * split; [by intros [? [=]] |]. intros H.
        destruct (H f) as [? Hsome]; [by left | congruence].
  - intros formulas Hrun.
    destruct (premises_by_rendering_from _ _ _ Hrun)
      as (Hkeys & _ & Hall & Hsize).
    repeat split.
    + by destruct (Hkeys key e H) as [Hin | [Hstr _]];
        [rewrite lookup_empty in Hin |].
    + by destruct (Hkeys key e H) as [Hin | [_ Hf]];
        [rewrite lookup_empty in Hin |].
    + exact Hall.
    + by rewrite map_size_empty in Hsize.
Qed.

End MoreOperationsProperties.

Section MoreOnTheEngine.
#[local] Existing Instance Engine.interpreter.

(** [p->(q->r)] and [(p->q)->r] on the engine: the two differ on the
    line where only [q] is true, and are reported equivalent. *)
Lemma check_equivalence_of_same_rendering_witness :
  ∃ truth_table,
    check_equivalence "p->(q->r)" "(p->q)->r" = Some (true, truth_table).
Proof.
  eexists.
  eapply (check_equivalence_of_same_rendering (Interp := Engine.interpreter));
    reflexivity.
Defined.

Lemma Consistency_perform_iff_some_model_witness :
  ∃ (formulas_models : gmap nat Valuation) (table : string),
    (Consistency_perform ["p"; "-p"] = Some (format_result "SIM" table)
     ↔ ∃ i, i ∈ dom formulas_models)
    ∧ (Consistency_perform ["p"; "-p"] = Some (format_result "NAO" table)
       ↔ dom formulas_models = ∅).
Proof.
  eexists _, _.
  eapply (Consistency_perform_iff_some_model (Interp := Engine.interpreter));
    reflexivity.
Defined.

End MoreOnTheEngine.

(** ** The string methods *)

Lemma split_not_nil (sep : ascii) (s : string) : Py.split sep s ≠ [].
Proof.
  destruct s as [| c s]; simpl; [done |].
  destruct (Ascii.eqb c sep); [done |]. by destruct (Py.split sep s).
Qed.

Lemma concat_cons_cons (sep x y : string) (l : list string) :
  String.concat sep (x :: y :: l) = x +:+ sep +:+ String.concat sep (y :: l).
Proof. done. Qed.

(** Joining the fields with the separator gives the text back. *)
Lemma concat_split (sep : ascii) (s : string) :
  String.concat (String sep EmptyString) (Py.split sep s) = s.
Proof.
  induction s as [| c s IH]; [done |]. cbn [Py.split].
  destruct (Ascii.eqb_spec c sep) as [-> | Hne].
  - destruct (Py.split sep s) as [| y l] eqn:Hs; [by apply split_not_nil in Hs |].
    rewrite concat_cons_cons, IH. done.
  - destruct (Py.split sep s) as [| y l] eqn:Hs; [by apply split_not_nil in Hs |].
    destruct l as [| z l].
    + simpl in *. by rewrite IH.
    + rewrite concat_cons_cons in *.
      change (String c (y +:+ String sep "" +:+ String.concat (String sep "") (z :: l))
              = String c s). by rewrite IH.
Qed.

Lemma split_length (sep : ascii) (s : string) :
  length (Py.split sep s) = S (count_char sep s).
Proof.
  induction s as [| c s IH]; [done |]. cbn [Py.split count_char].
  destruct (Ascii.eqb c sep); simpl; [by rewrite IH |].
  destruct (Py.split sep s); simpl in *; lia.
Qed.

Lemma split_fields_without_sep (sep : ascii) (s : string) :
  ∀ field, field ∈ Py.split sep s → count_char sep field = 0%nat.
Proof.
  induction s as [| c s IH]; cbn [Py.split].
  - by intros field ->%list_elem_of_singleton.
  - destruct (Ascii.eqb c sep) eqn:Hc.
    + intros field [-> | H]%elem_of_cons; [done | by apply IH].
    + destruct (Py.split sep s) as [| y l].
      * intros field ->%list_elem_of_singleton. simpl. by rewrite Hc.
      * intros field [-> | H]%elem_of_cons.
        -- simpl. rewrite Hc. apply IH. by left.
        -- apply IH. by right.
Qed.

Lemma split_without_sep (sep : ascii) (s : string) :
  count_char sep s = 0%nat → Py.split sep s = [s].
Proof.
  induction s as [| c s IH]; [done |]. cbn [Py.split count_char].
  destruct (Ascii.eqb c sep); [done |]. intros H. by rewrite IH.
Qed.

Lemma split_append (sep : ascii) (s t : string) :
  count_char sep s = 0%nat →
  Py.split sep (s +:+ String sep t) = s :: Py.split sep t.
Proof.
  induction s as [| c s IH].
  - intros _. change (Py.split sep (String sep t) = "" :: Py.split sep t).
    cbn [Py.split]. by rewrite Ascii.eqb_refl.
  - cbn [count_char]. intros H.
    change (Py.split sep (String c (s +:+ String sep t))
            = String c s :: Py.split sep t).
    cbn [Py.split]. destruct (Ascii.eqb c sep); [done |].
    by rewrite IH.
Qed.

(** Splitting the join of fields that hold no separator gives the fields
    back. *)
Lemma split_concat (sep : ascii) (fields : list string) :
  fields ≠ [] →
  (∀ field, field ∈ fields → count_char sep field = 0%nat) →
  Py.split sep (String.concat (String sep EmptyString) fields) = fields.
Proof.
  induction fields as [| x l IH]; [done |]. intros _ Hclean.
  destruct l as [| y l].
  - simpl. apply split_without_sep, Hclean. by left.
  - rewrite concat_cons_cons.
    change (String sep "" +:+ ?t) with (String sep t).
    rewrite split_append by (apply Hclean; by left).
    f_equal. apply IH; [done |]. intros field H. apply Hclean. by right.
Qed.

Lemma keep_append (p : ascii → bool) (s t : string) :
  keep p (s +:+ t) = keep p s +:+ keep p t.
Proof.
  induction s as [| c s IH]; [done |].
  change (keep p (String c (s +:+ t)) = keep p (String c s) +:+ keep p t).
  cbn [keep]. rewrite IH. by destruct (p c).
Qed.

Lemma keep_all (p : ascii → bool) (s : string) :
  all_chars p s = true → keep p s = s.
Proof.
  induction s as [| c s IH]; [done |]. cbn [all_chars keep].
  intros [-> Hs]%andb_prop. by rewrite IH.
Qed.

Lemma keep_keep (p q : ascii → bool) (s : string) :
  keep p (keep q s) = keep q (keep p s).
Proof.
  induction s as [| c s IH]; [done |]. cbn [keep].
  destruct (p c) eqn:Hp, (q c) eqn:Hq; cbn [keep]; rewrite ?Hp, ?Hq, ?IH; done.
Qed.

Lemma all_chars_keep (p : ascii → bool) (s : string) :
  all_chars p (keep p s) = true.
Proof.
  induction s as [| c s IH]; [done |]. cbn [keep].
  destruct (p c) eqn:Hp; [| done]. cbn [all_chars]. by rewrite Hp, IH.
Qed.

Lemma all_chars_keep_other (p q : ascii → bool) (s : string) :
  all_chars p s = true → all_chars p (keep q s) = true.
Proof.
  induction s as [| c s IH]; [done |]. cbn [keep all_chars].
  intros [Hc Hs]%andb_prop. destruct (q c); [| by apply IH].
  cbn [all_chars]. by rewrite Hc, IH.
Qed.

Lemma all_chars_keep_and (p q : ascii → bool) (s : string) :
  all_chars p s = true → all_chars (λ c, p c && q c) (keep q s) = true.
Proof.
  induction s as [| c s IH]; [done |]. cbn [keep all_chars].
  intros [Hc Hs]%andb_prop. destruct (q c) eqn:Hq; [| by apply IH].
  cbn [all_chars]. by rewrite Hc, Hq, IH.
Qed.

(** Taking a one-character text out is keeping the other characters. *)
Lemma remove_single (c : ascii) (s : string) :
  Py.remove (String c EmptyString) s = keep (λ d, negb (Ascii.eqb d c)) s.
Proof.
  unfold Py.remove. induction s as [| d s IH]; [done |].
  cbn [Py.remove_from String.prefix String.length Nat.sub keep].
  destruct (ascii_dec c d) as [-> | Hne].
  - replace (String.prefix "" s) with true by (by destruct s).
    by rewrite Ascii.eqb_refl, IH.
  - destruct (Ascii.eqb_spec d c) as [-> | _]; [done |]. simpl. by rewrite IH.
Qed.

Lemma concat_empty_cons (x : string) (l : list string) :
  String.concat "" (x :: l) = x +:+ String.concat "" l.
Proof. destruct l; simpl; [by rewrite string_append_nil_r | done]. Qed.

(** Joining the whitespace-separated words with nothing between them is
    keeping the characters that are not whitespace. *)
Lemma concat_split_whitespace (s : string) :
  String.concat "" (Py.split_whitespace s)
  = keep (λ c, negb (Py.is_space c)) s.
Proof.
  induction s as [| c s IH]; [done |]. cbn [Py.split_whitespace keep].
  destruct (Py.is_space c) eqn:Hc; cbn [negb]; [exact IH |].
  rewrite <- IH. destruct s as [| d s]; [done |].
  destruct (Py.is_space d) eqn:Hd.
  - by rewrite concat_empty_cons.
  - destruct (Py.split_whitespace (String d s)) as [| word words]; [done |].
    by rewrite !concat_empty_cons.
Qed.

Lemma count_char_zero (c : ascii) (s : string) :
  count_char c s = 0%nat ↔ all_chars (λ d, negb (Ascii.eqb d c)) s = true.
Proof.
  induction s as [| d s IH]; [done |]. cbn [count_char all_chars].
  destruct (Ascii.eqb d c); simpl; [split; [lia | done] | exact IH].
Qed.

Lemma all_chars_concat (p : ascii → bool) (sep : ascii)
      (fields : list string) :
  p sep = true →
  (∀ field, field ∈ fields → all_chars p field = true) →
  all_chars p (String.concat (String sep EmptyString) fields) = true.
Proof.
  intros Hsep. induction fields as [| x l IH]; [done |]. intros H.
  destruct l as [| y l]; [apply H; by left |].
  rewrite concat_cons_cons, !all_chars_append. cbn [all_chars].
  rewrite Hsep, (H x) by (by left). simpl. apply IH.
  intros field Hf. apply H. by right.
Qed.

Lemma split_fields_all_chars (p : ascii → bool) (sep : ascii) (s : string) :
  all_chars p s = true →
  ∀ field, field ∈ Py.split sep s → all_chars p field = true.
Proof.
  induction s as [| c s IH]; cbn [Py.split all_chars].
  - by intros _ field ->%list_elem_of_singleton.
  - intros [Hc Hs]%andb_prop. destruct (Ascii.eqb c sep).
    + intros field [-> | H]%elem_of_cons; [done | by apply IH].
    + destruct (Py.split sep s) as [| y l].
      * intros field ->%list_elem_of_singleton. simpl. by rewrite Hc.
      * intros field [-> | H]%elem_of_cons.
        -- simpl. rewrite Hc. apply IH; [done | by left].
        -- apply IH; [done | by right].
Qed.

Lemma concat_snoc (sep : string) (fields : list string) (x : string) :
  fields ≠ [] →
  String.concat sep (fields ++ [x]) = String.concat sep fields +:+ sep +:+ x.
Proof.
  induction fields as [| y l IH]; [done |]. intros _.
  destruct l as [| z l]; [done |].
  change (y +:+ sep +:+ String.concat sep ((z :: l) ++ [x])
          = (y +:+ sep +:+ String.concat sep (z :: l)) +:+ sep +:+ x).
  rewrite IH by done. by rewrite !string_append_assoc.
Qed.

(** Where the text holds no [C], there is no [CL] to take out. *)
Lemma remove_CL_without_C (s : string) :
  count_char "C" s = 0%nat → Py.remove "CL" s = s.
Proof.
  unfold Py.remove. induction s as [| d s IH]; [done |].
  cbn [count_char Py.remove_from String.prefix].
  destruct (ascii_dec "C" d) as [<- | Hne]; [done |].
  destruct (Ascii.eqb d "C"); [done |]. intros H. by rewrite IH.
Qed.

(** What the bracketed [parse] methods hand over, from what is left of
    the line once the symbol and the whitespace are out. *)
Lemma bracketed_args_of_text (SYMBOL line : string) (first : ascii)
      (inner : string) (fields : list string) :
  keep (λ c, negb (Py.is_space c)) (Py.remove SYMBOL line)
  = String first inner →
  keep (λ c, negb (Ascii.eqb c "]")) (keep (λ c, negb (Ascii.eqb c "[")) inner)
  = String.concat "," fields →
  fields ≠ [] →
  (∀ field, field ∈ fields → count_char "," field = 0%nat) →
  bracketed_args SYMBOL line = fields.
Proof.
  intros Hline Hinner Hne Hclean. unfold bracketed_args.
  rewrite concat_split_whitespace, Hline. cbn [Py.from_1].
  rewrite !remove_single, Hinner. by apply split_concat.
Qed.

(** The formulas of a bracketed line hold no whitespace, no bracket and
    no comma. *)
Lemma bracketed_args_without_separators (SYMBOL line : string) :
  ∀ arg, arg ∈ bracketed_args SYMBOL line →
         all_chars (λ c, negb (is_separator c)) arg = true.
Proof.
  intros arg Harg. unfold bracketed_args in Harg.
  rewrite concat_split_whitespace, !remove_single in Harg.
  set (text := keep _ (keep _ (Py.from_1 _))) in Harg.
  assert (Htext : all_chars (λ c, negb (Py.is_space c)
                                  && negb (Ascii.eqb c "[")
                                  && negb (Ascii.eqb c "]")) text = true).
  { subst text.
    set (stripped := keep (λ c, negb (Py.is_space c)) (Py.remove SYMBOL line)).
    assert (Hs : all_chars (λ c, negb (Py.is_space c)) (Py.from_1 stripped)
                 = true).
    { pose proof (all_chars_keep (λ c, negb (Py.is_space c))
                                 (Py.remove SYMBOL line)) as H.
      fold stripped in H. destruct stripped; [done |].
      by apply andb_prop in H as [_ H]. }
    exact (all_chars_keep_and _ (λ c, negb (Ascii.eqb c "]")) _
             (all_chars_keep_and _ (λ c, negb (Ascii.eqb c "[")) _ Hs)). }
  pose proof (split_fields_all_chars _ "," text Htext arg Harg) as Hp.
  pose proof (split_fields_without_sep "," text arg Harg) as Hcomma.
  apply count_char_zero in Hcomma.
  clear -Hp Hcomma. induction arg as [| c s IH]; [done |].
  cbn [all_chars] in *.
  apply andb_prop in Hp as [Hc Hs]. apply andb_prop in Hcomma as [Hd Hcs].
  rewrite (IH Hs Hcs). unfold is_separator.
  destruct (Py.is_space c), (Ascii.eqb c "["), (Ascii.eqb c "]"),
    (Ascii.eqb c ","); done.
Qed.

(** ** The [parse] methods *)

(** X17: [Operation.parse] gives as many arguments as the line has
    commas, none of them holding a comma; with the text before the first
    comma put back in front and commas in between, they are the line. *)
Theorem Operation_parse_fields (line : string) :
  length (Operation_parse line) = count_char "," line
  ∧ (∀ arg, arg ∈ Operation_parse line → count_char "," arg = 0%nat)
  ∧ ∃ operation,
      count_char "," operation = 0%nat
      ∧ String.concat "," (operation :: Operation_parse line) = line.
Proof.
  unfold Operation_parse.
  pose proof (split_length "," line) as Hlen.
  pose proof (split_fields_without_sep "," line) as Hfields.
  pose proof (concat_split "," line) as Hjoin.
  destruct (Py.split "," line) as [| operation args]; [done |]. cbn [tail].
  split; [simpl in Hlen; lia |]. split.
  - intros arg Harg. apply Hfields. by right.
  - exists operation. split; [apply Hfields; by left | exact Hjoin].
Qed.

(** X18: [Consistency.parse] gives one argument, a list of formulas that
    is never empty, and none of the formulas holds whitespace, a bracket,
    a comma or the letter [C]. *)
Theorem Consistency_parse_formulas (line : string) :
  ∃ formulas,
    Consistency_parse line = [formulas]
    ∧ formulas ≠ []
    ∧ ∀ f, f ∈ formulas →
           all_chars (λ c, negb (is_separator c)) f = true
           ∧ count_char "C" f = 0%nat.
Proof.
  exists (bracketed_args "C" line). split; [done |]. split.
  - apply split_not_nil.
  - intros f Hf. split; [by apply (bracketed_args_without_separators "C" line) |].
    apply count_char_zero. unfold bracketed_args in Hf.
    rewrite concat_split_whitespace, !remove_single in Hf.
    eapply split_fields_all_chars; [| exact Hf].
    do 2 apply all_chars_keep_other.
    set (stripped := keep _ _).
    assert (Hs : all_chars (λ d, negb (Ascii.eqb d "C")) stripped = true)
      by apply all_chars_keep_other, all_chars_keep.
    destruct stripped; [done |]. by apply andb_prop in Hs as [_ Hs].
Qed.

(** X19: a line written as [C], a comma and the bracketed formulas
    between commas, with whitespace anywhere, is parsed by
    [Consistency.parse] into those formulas, when there is at least one
    and none holds whitespace, a bracket, a comma or the letter [C]. *)
Theorem Consistency_parse_of_line (line : string) (formulas : list string) :
  formulas ≠ [] →
  (∀ f, f ∈ formulas →
        all_chars (λ c, negb (is_separator c)) f = true
        ∧ count_char "C" f = 0%nat) →
  keep (λ c, negb (Py.is_space c)) line
  = "C,[" +:+ String.concat "," formulas +:+ "]" →
  Consistency_parse line = [formulas].
Proof.
  intros Hne Hclean Hline. unfold Consistency_parse. f_equal.
  set (body := String.concat "," formulas) in *.
  assert (Hbody : ∀ p : ascii → bool,
             p ","%char = true →
             (∀ c, negb (is_separator c) = true → p c = true) →
             all_chars p body = true).
  { intros p Hcomma Hp. apply all_chars_concat; [done |].
    intros f Hf. eapply all_chars_impl; [exact Hp |]. by apply Hclean. }
  assert (HbodyC : all_chars (λ d, negb (Ascii.eqb d "C")) body = true).
  { apply all_chars_concat; [done |]. intros f Hf.
    apply count_char_zero. by apply Hclean. }
  apply (bracketed_args_of_text "C" line "," ("[" +:+ body +:+ "]"));
    [| | done |].
  - rewrite remove_single, keep_keep, Hline.
    change ("C,[" +:+ body +:+ "]") with (String "C" (",[" +:+ body +:+ "]")).
    cbn [keep Ascii.eqb Bool.eqb negb].
    change (",[" +:+ body +:+ "]") with (String "," (String "[" (body +:+ "]"))).
    cbn [keep Ascii.eqb Bool.eqb negb].
    by rewrite keep_append, (keep_all _ body HbodyC).
  - change ("[" +:+ body +:+ "]") with (String "[" (body +:+ "]")).
    cbn [keep Ascii.eqb Bool.eqb negb].
    rewrite keep_append, (keep_all _ body), keep_append, (keep_all _ body).
    + apply string_append_nil_r.
    + apply Hbody; [done |]. intros c. unfold is_separator.
      by destruct (Py.is_space c), (Ascii.eqb c "["), (Ascii.eqb c "]").
    + apply Hbody; [done |]. intros c. unfold is_separator.
      by destruct (Py.is_space c), (Ascii.eqb c "["), (Ascii.eqb c "]").
  - intros f Hf. apply count_char_zero.
    eapply all_chars_impl; [| apply (Hclean f Hf)].
    intros c. unfold is_separator.
    by destruct (Py.is_space c), (Ascii.eqb c "["), (Ascii.eqb c "]"),
      (Ascii.eqb c ",").
Qed.

Lemma Consistency_parse_of_line_witness :
  Consistency_parse "C, [p, -p]" = [["p"; "-p"]].
Proof.
  apply Consistency_parse_of_line; [done | | reflexivity].
  intros f [-> | [-> | H%elem_of_nil]%elem_of_cons]%elem_of_cons; done.
Defined.

(** X20: [LogicConsequence.parse] never stops on the index error: every
    line, the empty one too, gives premises and a formula, which are the
    comma-separated pieces of the line in order, the formula last; none of
    them holds whitespace, a bracket or a comma. *)
Theorem LogicConsequence_parse_total (line : string) :
  ∃ formulas_set formula,
    LogicConsequence_parse line = Some (formulas_set, formula)
    ∧ bracketed_args "CL" line = (formulas_set ++ [formula])%list
    ∧ ∀ f, f ∈ (formulas_set ++ [formula])%list →
           all_chars (λ c, negb (is_separator c)) f = true.
Proof.
  unfold LogicConsequence_parse.
  pose proof (bracketed_args_without_separators "CL" line) as Hclean.
  assert (Hne : bracketed_args "CL" line ≠ []) by apply split_not_nil.
  destruct (exists_last Hne) as (formulas_set & formula & Heq).
  rewrite Heq in *. exists formulas_set, formula.
  rewrite last_snoc, removelast_last. done.
Qed.

(** What [LogicConsequence.parse] makes of a line written as [CL], a
    comma, the bracketed premises between commas, a comma and the
    formula. *)
Lemma LogicConsequence_parse_line (rest formula : string)
      (premises : list string) :
  count_char "C" rest = 0%nat →
  (∀ f, f ∈ (premises ++ [formula])%list →
        all_chars (λ c, negb (is_separator c)) f = true) →
  keep (λ c, negb (Py.is_space c)) rest
  = ",[" +:+ String.concat "," premises +:+ "]," +:+ formula →
  LogicConsequence_parse ("CL" +:+ rest)
  = Some (if bool_decide (premises = []) then [""] else premises, formula).
Proof.
  intros HC Hclean Hrest.
  set (given := if bool_decide (premises = []) then [""] else premises).
  assert (Hgiven : given ≠ []) by (subst given; by case_bool_decide).
  assert (Hbody : String.concat "," premises = String.concat "," given).
  { subst given. case_bool_decide as Hp; [by subst premises | done]. }
  assert (Hclean' : ∀ f, f ∈ (given ++ [formula])%list →
                         all_chars (λ c, negb (is_separator c)) f = true).
  { intros f [Hf | Hf]%elem_of_app; [| apply Hclean, elem_of_app; by right].
    subst given. case_bool_decide.
    - by apply list_elem_of_singleton in Hf as ->.
    - apply Hclean, elem_of_app. by left. }
  assert (Hargs : bracketed_args "CL" ("CL" +:+ rest)
                  = (given ++ [formula])%list).
  { set (body := String.concat "," (given ++ [formula])).
    apply (bracketed_args_of_text "CL" _ "," ("[" +:+ String.concat "," given
                                              +:+ "]," +:+ formula)).
    - change ("CL" +:+ rest) with (String "C" (String "L" rest)).
      unfold Py.remove. cbn [Py.remove_from String.prefix String.length
                             Nat.sub].
      destruct (ascii_dec "C" "C") as [_ | Hne]; [| done].
      destruct (ascii_dec "L" "L") as [_ | Hne]; [| done].
      replace (String.prefix "" rest) with true by (by destruct rest).
      fold (Py.remove "CL" rest). rewrite remove_CL_without_C by done.
      by rewrite Hrest, Hbody.
    - assert (HA : ∀ p : ascii → bool,
                 p ","%char = true →
                 (∀ c, negb (is_separator c) = true → p c = true) →
                 keep p (String.concat "," given) = String.concat "," given).
      { intros p Hcomma Hp. apply keep_all, all_chars_concat; [done |].
        intros f Hf. eapply all_chars_impl; [exact Hp |].
        apply Hclean', elem_of_app. by left. }
      assert (HF : ∀ p : ascii → bool,
                 (∀ c, negb (is_separator c) = true → p c = true) →
                 keep p formula = formula).
      { intros p Hp. apply keep_all. eapply all_chars_impl; [exact Hp |].
        apply Hclean', elem_of_app. right. by left. }
      assert (Hopen : ∀ c, negb (is_separator c) = true →
                           negb (Ascii.eqb c "[") = true).
      { intros c. unfold is_separator.
        by destruct (Py.is_space c), (Ascii.eqb c "["), (Ascii.eqb c "]"). }
      assert (Hclose : ∀ c, negb (is_separator c) = true →
                            negb (Ascii.eqb c "]") = true).
      { intros c. unfold is_separator.
        by destruct (Py.is_space c), (Ascii.eqb c "["), (Ascii.eqb c "]"). }
      change ("[" +:+ String.concat "," given +:+ "]," +:+ formula)
        with (String "[" (String.concat "," given
                          +:+ String "]" (String "," formula))).
      cbn [keep Ascii.eqb Bool.eqb negb].
      rewrite keep_append, HA by done.
      cbn [keep Ascii.eqb Bool.eqb negb].
      rewrite HF by done.
      rewrite keep_append, HA by done.
      cbn [keep Ascii.eqb Bool.eqb negb].
      rewrite HF by done.
      subst body. by rewrite concat_snoc.
    - by destruct given.
    - intros f Hf. apply count_char_zero.
      eapply all_chars_impl; [| apply (Hclean' f Hf)].
      intros c. unfold is_separator.
      by destruct (Py.is_space c), (Ascii.eqb c "["), (Ascii.eqb c "]"),
        (Ascii.eqb c ","). }
  unfold LogicConsequence_parse. rewrite Hargs.
  by rewrite last_snoc, removelast_last.
Qed.

(** X21: a line written as [CL], a comma, the bracketed premises between
    commas, a comma and the formula, with whitespace anywhere after the
    symbol, is parsed by [LogicConsequence.parse] into those premises and
    that formula, when none of them holds whitespace, a bracket, a comma
    or the letter [C]; with nothing between the brackets, the premises
    handed over are the list holding only the empty string. *)
Theorem LogicConsequence_parse_of_line (rest formula : string)
        (premises : list string) :
  count_char "C" rest = 0%nat →
  (∀ f, f ∈ (premises ++ [formula])%list →
        all_chars (λ c, negb (is_separator c)) f = true) →
  keep (λ c, negb (Py.is_space c)) rest
  = ",[" +:+ String.concat "," premises +:+ "]," +:+ formula →
  LogicConsequence_parse ("CL" +:+ rest)
  = Some (if bool_decide (premises = []) then [""] else premises, formula).
Proof. apply LogicConsequence_parse_line. Qed.

Lemma LogicConsequence_parse_of_line_witness :
  LogicConsequence_parse ("CL" +:+ ", [p, p->q], q")
  = Some (["p"; "p->q"], "q").
Proof.
  apply (LogicConsequence_parse_of_line ", [p, p->q], q" "q" ["p"; "p->q"]);
    [reflexivity | | reflexivity].
  intros f Hf. repeat (apply elem_of_cons in Hf as [-> | Hf]; [done |]).
  by apply elem_of_nil in Hf.
Defined.

Section ParseThenPerform.
Context `{Interp : LpInterpreter}.

(** X22: a consequence line with nothing between its brackets is handled
    as the consequence of the empty set: what [LogicConsequence.parse]
    hands over makes [LogicConsequence.perform] answer with
    [is_logic_consequence_of_empty_set] on the line's formula. *)
Theorem empty_brackets_reach_the_empty_set_case (rest formula : string) :
  count_char "C" rest = 0%nat →
  all_chars (λ c, negb (is_separator c)) formula = true →
  keep (λ c, negb (Py.is_space c)) rest = ",[]," +:+ formula →
  ∃ formulas_set formula',
    LogicConsequence_parse ("CL" +:+ rest) = Some (formulas_set, formula')
    ∧ LogicConsequence_perform formulas_set formula'
      = is_logic_consequence_of_empty_set formula.
Proof.
  intros HC Hclean Hrest.
  exists [""], formula. split; [| done].
  apply (LogicConsequence_parse_line rest formula []); [done | | done].
  by intros f ->%list_elem_of_singleton.
Qed.

End ParseThenPerform.

Section ParseThenPerformOnTheEngine.
#[local] Existing Instance Engine.interpreter.

Lemma empty_brackets_reach_the_empty_set_case_witness :
  ∃ formulas_set formula',
    LogicConsequence_parse ("CL" +:+ ", [], q|-q")
    = Some (formulas_set, formula')
    ∧ LogicConsequence_perform formulas_set formula'
      = is_logic_consequence_of_empty_set "q|-q".
Proof.
  apply (empty_brackets_reach_the_empty_set_case
           (Interp := Engine.interpreter) ", [], q|-q" "q|-q");
    reflexivity.
Defined.

End ParseThenPerformOnTheEngine.

(** ** The callers of the checks *)

Section Performs.
Context `{Interp : LpInterpreter}.

(** X23: when the table of the formula is built, [SemanticStatus.perform]
    answers TAUTOLOGIA exactly when the table has a line and every line
    is true, CONTRADICAO exactly when it has a line and every line is
    false, and CONTINGENCIA exactly when it has no line or has both a
    true and a false one. *)
Theorem SemanticStatus_perform_verdict
        (formula : string) (truth_table : TruthTable)
        (valuations : gmap nat (Valuation * bool)) (table : string) :
  TruthTable_new formula = Some truth_table →
  get_formula_valuations truth_table = Some valuations →
  TruthTable_str_representation truth_table = Some table →
  (SemanticStatus_perform formula = Some (format_result "TAUTOLOGIA" table)
   ↔ valuations ≠ ∅
     ∧ ∀ i line, valuations !! i = Some line → line.2 = true)
  ∧ (SemanticStatus_perform formula
     = Some (format_result "CONTRADICAO" table)
     ↔ valuations ≠ ∅
       ∧ ∀ i line, valuations !! i = Some line → line.2 = false)
  ∧ (SemanticStatus_perform formula
     = Some (format_result "CONTINGENCIA" table)
     ↔ valuations = ∅
       ∨ ((∃ i line, valuations !! i = Some line ∧ line.2 = true)
          ∧ ∃ i line, valuations !! i = Some line ∧ line.2 = false)).
Proof.
  intros Htable Hvals Hrepr. unfold SemanticStatus_perform.
  rewrite Htable. simpl. rewrite Hvals. simpl. rewrite Hrepr. simpl.
  assert (Hverdict : ∀ v,
    v ∈ ["SIM"; "NAO"; "TAUTOLOGIA"; "CONTRADICAO"; "CONTINGENCIA"] →
    Some (format_result (check_status (formula_values_of valuations)) table)
    = Some (format_result v table)
    ↔ check_status (formula_values_of valuations) = v).
  { intros v Hv. split; [| by intros ->].
    intros H%(inj Some)%format_result_verdict;
      [done | apply check_status_range | done]. }
  rewrite !Hverdict by repeat constructor.
  destruct (check_status_cases (formula_values_of valuations))
    as (Ht & Hc & Hg).
  rewrite Ht, Hc, Hg, !elem_of_formula_values.
  assert (Hall : ∀ b,
    (∃ i line, valuations !! i = Some line ∧ line.2 = b)
    ∧ ¬ (∃ i line, valuations !! i = Some line ∧ line.2 = negb b)
    ↔ valuations ≠ ∅ ∧ ∀ i line, valuations !! i = Some line → line.2 = b).
  { intros b. split.
    - intros [(i & line & Hi & Hb) Hnone]. split.
      + intros ->. by rewrite lookup_empty in Hi.
      + intros j l Hj. destruct (l.2) eqn:Hl, b; try done;
          exfalso; apply Hnone; eauto.
    - intros [Hne Hlines]. split.
      + apply map_choose in Hne as (i & line & Hi). eauto.
      + intros (i & line & Hi & Hb). rewrite (Hlines i line Hi) in Hb.
        by destruct b. }
  split; [exact (Hall true) |]. split; [exact (Hall false) |].
  destruct (decide (valuations = ∅)) as [-> | Hne].
  - split; [by left |]. intros _.
    split; intros [(i & line & Hi & _) _]; by rewrite lookup_empty in Hi.
  - assert (Hdec : ∀ b, Decision (∃ i line, valuations !! i = Some line
                                            ∧ line.2 = b)).
    { intros b.
      destruct (decide (b ∈ formula_values_of valuations)) as [Hin | Hout].
      - left. by apply elem_of_formula_values.
      - right. by rewrite <- elem_of_formula_values. }
    split.
    + intros [Hnt Hnc]. right.
      destruct (Hdec true) as [Htrue | Hno_true],
               (Hdec false) as [Hfalse | Hno_false]; try tauto.
      exfalso. apply map_choose in Hne as (i & [v b] & Hi).
      destruct b; [apply Hno_true | apply Hno_false]; eauto.
    + intros [? | [Htrue Hfalse]]; [done | tauto].
Qed.

(** X24: when the shared table is built and both formulas parse,
    [SemanticEquivalence.perform] answers SIM exactly when the two
    formulas have the same model indexes, and NAO exactly when they do
    not. *)
Theorem SemanticEquivalence_perform_verdict
        (formula1 formula2 : string) (truth_table : SetTruthTable)
        (e1 e2 : Symbol) (models1 models2 : gmap nat Valuation)
        (table : string) :
  SetTruthTable_new [formula1; formula2] = Some truth_table →
  Interpreter_parse_expression formula1 = Some e1 →
  Interpreter_parse_expression formula2 = Some e2 →
  get_formula_models truth_table (str_representation e1) = Some models1 →
  get_formula_models truth_table (str_representation e2) = Some models2 →
  SetTruthTable_str_representation truth_table = Some table →
  (SemanticEquivalence_perform formula1 formula2
   = Some (format_result "SIM" table)
   ↔ dom models1 = dom models2)
  ∧ (SemanticEquivalence_perform formula1 formula2
     = Some (format_result "NAO" table)
     ↔ dom models1 ≠ dom models2).
Proof.
  intros Htable He1 He2 Hm1 Hm2 Hrepr.
  unfold SemanticEquivalence_perform, check_equivalence.
  rewrite Htable. simpl. rewrite He1. simpl. rewrite He2. simpl.
  rewrite Hm1. simpl. rewrite Hm2. simpl.
  rewrite set_eq_subseteq, <- !indexes_all_in_dom.
  destruct (indexes_all_in (map_to_list models1) models2);
    [destruct (indexes_all_in (map_to_list models2) models1) |];
    rewrite Hrepr; simpl; split; split; try done.
  all: first [ by intros [??] | by intros _ [??]
             | by intros H; exfalso; apply H ].
Qed.

(** X25: from premises that have no common model every formula follows:
    off the empty-set case, when the dict of the premises' common models
    is empty, [LogicConsequence.perform] answers SIM. *)
Theorem LogicConsequence_perform_without_models
        (formulas_set : list string) (formula : string)
        (truth_table : SetTruthTable) (e : Symbol)
        (formulas : gmap string Symbol)
        (formula_models : gmap nat Valuation) (table : string) :
  formulas_set ≠ [""] →
  SetTruthTable_new (formulas_set ++ [formula]) = Some truth_table →
  Interpreter_parse_expression formula = Some e →
  premises_by_rendering formulas_set ∅ = Some formulas →
  get_formulas_set_models truth_table (Some formulas) = Some ∅ →
  get_formula_models truth_table (str_representation e)
  = Some formula_models →
  SetTruthTable_str_representation truth_table = Some table →
  LogicConsequence_perform formulas_set formula
  = Some (format_result "SIM" table).
Proof.
  intros Hguard Htable He Hforms Hset Hmodels Hrepr.
  unfold LogicConsequence_perform.
  destruct (is_empty_set formulas_set) eqn:Hempty;
    [by apply is_empty_set_iff in Hempty |].
  rewrite Htable. simpl. rewrite He. simpl. rewrite Hforms. simpl.
  rewrite Hset. simpl. rewrite Hmodels. simpl. rewrite Hrepr. simpl.
  by rewrite map_to_list_empty.
Qed.

End Performs.

Section PerformsOnTheEngine.
#[local] Existing Instance Engine.interpreter.

(** [p|-p] on the engine. *)
Lemma SemanticStatus_perform_verdict_witness :
  ∃ (valuations : gmap nat (Valuation * bool)) (table : string),
    SemanticStatus_perform "p|-p" = Some (format_result "TAUTOLOGIA" table)
    ↔ valuations ≠ ∅
      ∧ ∀ i line, valuations !! i = Some line → line.2 = true.
Proof.
  eexists _, _.
  eapply (SemanticStatus_perform_verdict (Interp := Engine.interpreter));
    reflexivity.
Defined.

(** [p->q] and [-p|q] on the engine. *)
Lemma SemanticEquivalence_perform_verdict_witness :
  ∃ (models1 models2 : gmap nat Valuation) (table : string),
    SemanticEquivalence_perform "p->q" "-p|q"
    = Some (format_result "SIM" table)
    ↔ dom models1 = dom models2.
Proof.
  eexists _, _, _.
  eapply (SemanticEquivalence_perform_verdict (Interp := Engine.interpreter));
    reflexivity.
Defined.

(** [q] from [p] and [-p] on the engine. *)
Lemma LogicConsequence_perform_without_models_witness :
  ∃ table : string,
    LogicConsequence_perform ["p"; "-p"] "q"
    = Some (format_result "SIM" table).
Proof.
  eexists.
  eapply (LogicConsequence_perform_without_models
            (Interp := Engine.interpreter));
    (discriminate || reflexivity).
Defined.

(** The premise dict of [p] and [p->q] on the engine is made. *)
Lemma premises_by_rendering_entries_witness :
  is_Some (premises_by_rendering ["p"; "p->q"] ∅).
Proof.
  apply (premises_by_rendering_entries (Interp := Engine.interpreter)).
  intros f Hf. repeat (apply elem_of_cons in Hf as [-> | Hf]; [by eexists |]).
  by apply elem_of_nil in Hf.
Defined.

(** The two nestings of the implication differ on the line where only
    [q] is true, and are reported equivalent. *)
Example scenario_nested_implications :
  SemanticEquivalence_perform "p->(q->r)" "(p->q)->r"
  = Some "[SIM, [TTTTT, TTFFF, TFTTT, TFFTT, FTTTT, FTFTF, FFTTT, FFFTF]]".
Proof. vm_compute. reflexivity. Qed.

End PerformsOnTheEngine.

(** ** Formulas that render alike *)

Section NestedImplications.
Context `{Interp : LpInterpreter}.

(** C3: on [p->(q->r)] and [(p->q)->r], [check_equivalence] returns true
    although the two formulas differ where only [q] is true.  Both trees
    render as [p->q->r], so both model dicts are fetched from the shared
    table under that one key and cannot differ; with any interpreter that
    parses the two texts into these trees and answers the lookup, the flag
    is true. *)
Theorem check_equivalence_nested_implications
        (truth_table : SetTruthTable) (models : gmap nat Valuation) :
  SetTruthTable_new ["p->(q->r)"; "(p->q)->r"] = Some truth_table →
  Interpreter_parse_expression "p->(q->r)" = Some implies_right_nested →
  Interpreter_parse_expression "(p->q)->r" = Some implies_left_nested →
  get_formula_models truth_table "p->q->r" = Some models →
  check_equivalence "p->(q->r)" "(p->q)->r" = Some (true, truth_table)
  ∧ str_representation implies_right_nested = "p->q->r"
  ∧ str_representation implies_left_nested = "p->q->r"
  ∧ implies_right_nested ≠ implies_left_nested
  ∧ Engine.truth_value implies_right_nested only_q = Some true
  ∧ Engine.truth_value implies_left_nested only_q = Some false.
Proof.
  intros Htable He1 He2 Hmodels.
  split; [| by repeat split].
  assert (Hright : str_representation implies_right_nested = "p->q->r")
    by reflexivity.
  assert (Hleft : str_representation implies_left_nested = "p->q->r")
    by reflexivity.
  unfold check_equivalence.
  rewrite Htable. cbn [mbind option_bind]. rewrite He1, He2.
  cbn [mbind option_bind]. rewrite Hright, Hleft, Hmodels.
  cbn [mbind option_bind]. by rewrite indexes_all_in_self.
Qed.


End NestedImplications.

Section NestedImplicationsOnTheEngine.
#[local] Existing Instance Engine.interpreter.

(** On the engine the texts parse into the two trees, the table is the
    one with the line [FTFTF], and the flag is true. *)
Lemma check_equivalence_nested_implications_witness :
  (∃ truth_table,
      check_equivalence "p->(q->r)" "(p->q)->r" = Some (true, truth_table)
      ∧ SetTruthTable_str_representation truth_table
        = Some nested_implications_table)
  ∧ Engine.truth_value implies_right_nested only_q = Some true
  ∧ Engine.truth_value implies_left_nested only_q = Some false.
Proof.
  edestruct (check_equivalence_nested_implications
               (Interp := Engine.interpreter)) as (Hrun & _ & _ & _ & Ha & Hb);
    [reflexivity .. |].
  split; [| by split].
  eexists. split; [exact Hrun | reflexivity].
Defined.


End NestedImplicationsOnTheEngine.
